(** * Reflexion actor: tool dispatch, retrying responder, iteration bound

    A shallow embedding of the code cells of
    [examples/reflexion/reflexion.ipynb]: [execute_tools],
    [ResponderWithRetries.respond], the schemas [AnswerQuestion] and
    [ReviseAnswer], [_get_num_iterations], [event_loop] and the wiring of
    the graph.  Python lists that are only read are Rocq lists; the list
    [respond] receives is a heap object, because the question whether the
    caller sees the retry history is a question about aliasing; a [dict]
    is an insertion-ordered association list, since the order of the
    emitted tool messages follows it. *)

From stdpp Require Import base option list strings gmap.

Local Open Scope string_scope.
Local Open Scope list_scope.
Local Open Scope stdpp_scope.

(** ** Exceptions and results *)

Inductive Exn :=
| ValidationError (repr : string)
| KeyError (key : string)
| IndexError
| BackendError (desc : string).

Inductive Result (A : Type) :=
| Ok (a : A)
| Raise (e : Exn).
Arguments Ok {A} a.
Arguments Raise {A} e.

(** ** Python [dict]: insertion order kept, at most one entry per key *)

Module Dict.
Section Dict.
Context {V : Type}.

Definition t := list (string * V).

Definition keys (d : t) : list string := d.*1.

Fixpoint get (k : string) (d : t) : option V :=
  match d with
  | [] => None
  | (k', v) :: d' => if decide (k = k') then Some v else get k d'
  end.

(** [d[k] = v]: an existing key keeps its place, a new one goes last. *)
Fixpoint set (k : string) (v : V) (d : t) : t :=
  match d with
  | [] => [(k, v)]
  | (k', v') :: d' =>
      if decide (k = k') then (k, v) :: d' else (k', v') :: set k v d'
  end.

End Dict.
Arguments t : clear implicits.
End Dict.

(** ** Data model *)

(** The arguments of a tool call as the model generated them.  A field
    the model left out is [None]; a field that is present has the type
    its schema declares. *)
Record ReflectionArgs := {
  arg_missing : option string;
  arg_superfluous : option string;
}.

Record Args := {
  arg_answer : option string;
  arg_reflection : option ReflectionArgs;
  arg_search_queries : option (list string);
  arg_references : option (list string);
}.

(** One entry of [parser.invoke(message)]: the keys ["type"], ["args"]
    and ["id"]. *)
Record ToolCall := {
  call_type : string;
  call_args : Args;
  call_id : string;
}.

(** Modelled from the spec: what one lookup of the search collaborator
    gives back (the tool itself is not among the sources): a list of
    records with url and snippet, or, on failure, an error value. *)
Inductive Output :=
| Records (rs : list (string * string))
| ErrorValue (repr : string).

(** A [ToolMessage] built by [execute_tools] has [json.dumps] of a dict
    as content; the text is represented by the object it encodes, in the
    dict's order. *)
Inductive BaseMessage :=
| HumanMessage (content : string)
| SystemMessage (content : string)
| AIMessage (content : string) (tool_calls : list ToolCall)
| ToolMessage (content : Dict.t Output) (tool_call_id : string).

Record ToolInvocation := {
  tool : string;
  tool_input : string;
}.

(** [JsonOutputToolsParser(return_id=True)]: the tool calls a message
    carries; a message without tool calls parses to the empty list. *)
Definition parser_invoke (m : BaseMessage) : list ToolCall :=
  match m with
  | AIMessage _ tool_calls => tool_calls
  | _ => []
  end.

(** ** The world the actor runs in

    [backend] is the state of the collaborators (language model, search
    service), [heap] holds the list objects [respond] works on, [calls]
    records every prompt sent to the language model. *)
Definition loc := positive.

Record World (W : Type) := {
  backend : W;
  heap : gmap loc (list BaseMessage);
  calls : list (list BaseMessage);
}.
Arguments backend {W} _.
Arguments heap {W} _.
Arguments calls {W} _.

Definition M (W A : Type) : Type := World W → World W * Result A.

Definition raise {W A} (e : Exn) : M W A := λ σ, (σ, Raise e).

#[global] Instance M_ret {W} : MRet (M W) := λ A a σ, (σ, Ok a).
#[global] Instance M_bind {W} : MBind (M W) := λ A B k c σ,
  match c σ with
  | (σ', Ok a) => k a σ'
  | (σ', Raise e) => (σ', Raise e)
  end.

Definition with_backend {W} (w : W) (σ : World W) : World W :=
  {| backend := w; heap := heap σ; calls := calls σ |}.

(** A collaborator that only touches its own state. *)
Definition lift {W A} (f : W → W * Result A) : M W A :=
  λ σ, let '(w', r) := f (backend σ) in (with_backend w' σ, r).

(** ** Tool execution *)

Section execute_tools.
Context {W : Type}.
(** [tool_executor.batch]: runs the invocations and returns their
    outputs, or raises.  The executor is not among the sources; here it
    is any function of the invocations and the collaborators' state. *)
Variable tool_executor_batch :
  list ToolInvocation → W → W * Result (list Output).

(** The inner loop [for query in parsed_call["args"]["search_queries"]]. *)
Fixpoint append_queries (call_id : string) (queries : list string)
    (ids : list string) (tool_invocations : list ToolInvocation)
    : list string * list ToolInvocation :=
  match queries with
  | [] => (ids, tool_invocations)
  | query :: rest =>
      append_queries call_id rest
        (ids ++ [call_id])
        (tool_invocations ++
           [{| tool := "tavily_search_results_json"; tool_input := query |}])
  end.

(** The outer loop [for parsed_call in parsed_tool_calls]. *)
Fixpoint flatten_calls (parsed_tool_calls : list ToolCall)
    (ids : list string) (tool_invocations : list ToolInvocation)
    : Result (list string * list ToolInvocation) :=
  match parsed_tool_calls with
  | [] => Ok (ids, tool_invocations)
  | parsed_call :: rest =>
      match arg_search_queries (call_args parsed_call) with
      | None => Raise (KeyError "search_queries")
      | Some queries =>
          let '(ids', tool_invocations') :=
            append_queries (call_id parsed_call) queries ids tool_invocations in
          flatten_calls rest ids' tool_invocations'
      end
  end.

(** [zip(ids, outputs, tool_invocations)] stops at the shortest. *)
Fixpoint zip3 (ids : list string) (outputs : list Output)
    (tool_invocations : list ToolInvocation)
    : list (string * Output * ToolInvocation) :=
  match ids, outputs, tool_invocations with
  | id_ :: ids', output :: outputs', invocation :: invocations' =>
      (id_, output, invocation) :: zip3 ids' outputs' invocations'
  | _, _, _ => []
  end.

(** [outputs_map[id_][invocation.tool_input] = output] on a
    [defaultdict(dict)]: a missing [id_] first gets an empty dict. *)
Definition store_output (outputs_map : Dict.t (Dict.t Output))
    (id_ : string) (output : Output) (invocation : ToolInvocation)
    : Dict.t (Dict.t Output) :=
  let query_outputs := default [] (Dict.get id_ outputs_map) in
  Dict.set id_ (Dict.set (tool_input invocation) output query_outputs)
    outputs_map.

Fixpoint group_outputs (zipped : list (string * Output * ToolInvocation))
    (outputs_map : Dict.t (Dict.t Output)) : Dict.t (Dict.t Output) :=
  match zipped with
  | [] => outputs_map
  | (id_, output, invocation) :: rest =>
      group_outputs rest (store_output outputs_map id_ output invocation)
  end.

(** The list comprehension over [outputs_map.items()]. *)
Definition tool_messages (outputs_map : Dict.t (Dict.t Output))
    : list BaseMessage :=
  (λ '(id_, query_outputs), ToolMessage query_outputs id_) <$> outputs_map.

Definition execute_tools (state : list BaseMessage) : M W (list BaseMessage) :=
  match last state with
  | None => raise IndexError
  | Some tool_invocation =>
      let parsed_tool_calls := parser_invoke tool_invocation in
      match flatten_calls parsed_tool_calls [] [] with
      | Raise e => raise e
      | Ok (ids, tool_invocations) =>
          outputs ← lift (tool_executor_batch tool_invocations);
          mret (tool_messages
                 (group_outputs (zip3 ids outputs tool_invocations) []))
      end
  end.
End execute_tools.

(** Modelled from the spec: [ToolExecutor.batch] (the class is part of
    the library, not of the sources) over the search collaborator of the
    spec's section 6.  Every operation is looked up on its own, in
    order; a lookup that fails is surfaced as an [ErrorValue] in its own
    slot and the batch goes on. *)
Fixpoint batch_isolated {W} (search : string → W → W * Output)
    (tool_invocations : list ToolInvocation) (w : W)
    : W * Result (list Output) :=
  match tool_invocations with
  | [] => (w, Ok [])
  | invocation :: rest =>
      let '(w1, output) := search (tool_input invocation) w in
      match batch_isolated search rest w1 with
      | (w2, Ok outputs) => (w2, Ok (output :: outputs))
      | (w2, Raise e) => (w2, Raise e)
      end
  end.

(** ** Schemas *)

Record Reflection := {
  missing : string;
  superfluous : string;
}.

Record AnswerQuestion := {
  answer : string;
  reflection : Reflection;
  search_queries : list string;
}.

(** [class ReviseAnswer(AnswerQuestion)]: the inherited fields, then
    [references]. *)
Record ReviseAnswer := {
  revised : AnswerQuestion;
  references : list string;
}.

(** The fields are declared with [Field(description=...)] and no
    default, so each one is required; the descriptions ("~250 word",
    "1-3 search queries") are text for the model and add no constraint.
    The outcome of looking at one field: its value or the name of the
    missing field. *)
Definition required {A} (name : string) (field : option A) : list string + A :=
  match field with
  | Some v => inr v
  | None => inl [name]
  end.

Definition errors_of {A} (r : list string + A) : list string :=
  match r with
  | inl errors => errors
  | inr _ => []
  end.

Definition validation_error (model : string) (errors : list string) : Exn :=
  ValidationError
    (model ++ ": field required: " ++ String.concat ", " errors)%string.

Definition Reflection_fields (args : ReflectionArgs) : list string + Reflection :=
  match required "missing" (arg_missing args),
        required "superfluous" (arg_superfluous args) with
  | inr m, inr s => inr {| missing := m; superfluous := s |}
  | m, s => inl (errors_of m ++ errors_of s)
  end.

Definition AnswerQuestion_fields (args : Args) : list string + AnswerQuestion :=
  match required "answer" (arg_answer args),
        (match arg_reflection args with
         | Some r =>
             match Reflection_fields r with
             | inr r' => inr r'
             | inl errors => inl ((λ e, "reflection." ++ e)%string <$> errors)
             end
         | None => inl ["reflection"]
         end),
        required "search_queries" (arg_search_queries args) with
  | inr a, inr r, inr q =>
      inr {| answer := a; reflection := r; search_queries := q |}
  | a, r, q => inl (errors_of a ++ errors_of r ++ errors_of q)
  end.

Definition ReviseAnswer_fields (args : Args) : list string + ReviseAnswer :=
  match AnswerQuestion_fields args, required "references" (arg_references args) with
  | inr a, inr refs => inr {| revised := a; references := refs |}
  | a, refs => inl (errors_of a ++ errors_of refs)
  end.

(** Building the class from the arguments of a tool call, passed as
    keywords. *)
Definition AnswerQuestion_validate (args : Args) : Result AnswerQuestion :=
  match AnswerQuestion_fields args with
  | inr a => Ok a
  | inl errors => Raise (validation_error "AnswerQuestion" errors)
  end.

Definition ReviseAnswer_validate (args : Args) : Result ReviseAnswer :=
  match ReviseAnswer_fields args with
  | inr a => Ok a
  | inl errors => Raise (validation_error "ReviseAnswer" errors)
  end.

(** [PydanticToolsParser(tools=[cls]).invoke(response)].  The parser
    keeps its classes by name and, for every tool call of the response
    in order, looks up the class that the call's [type] names and builds
    it from the call's [args].  A [type] that is not the name of a class
    of the parser raises [KeyError] with that name; a class that cannot
    be built raises its [ValidationError]; the first exception ends the
    parse.  Each parser of the notebook has a single class: [name] is
    the name of the class and [schema] builds it. *)
Fixpoint validate_calls {T} (name : string) (schema : Args → Result T)
    (parsed_tool_calls : list ToolCall) : Result (list T) :=
  match parsed_tool_calls with
  | [] => Ok []
  | parsed_call :: rest =>
      if decide (call_type parsed_call = name) then
        match schema (call_args parsed_call) with
        | Raise e => Raise e
        | Ok v =>
            match validate_calls name schema rest with
            | Ok vs => Ok (v :: vs)
            | Raise e => Raise e
            end
        end
      else Raise (KeyError (call_type parsed_call))
  end.

Definition PydanticToolsParser {T} (name : string) (schema : Args → Result T)
    (response : BaseMessage) : Result (list T) :=
  validate_calls name schema (parser_invoke response).

Definition validator :=
  PydanticToolsParser "AnswerQuestion" AnswerQuestion_validate.
Definition revision_validator :=
  PydanticToolsParser "ReviseAnswer" ReviseAnswer_validate.

(** ** The responder with retries *)

(** [runnable.invoke] is a call to the language model: it reads the
    messages it is given and answers with a message or raises.
    [validator.invoke] is a function of the response; its value is
    dropped by [respond], only a raised exception matters. *)
Record ResponderWithRetries (W : Type) := {
  parsed : Type;
  runnable : list BaseMessage → W → W * Result BaseMessage;
  validator_of : BaseMessage → Result parsed;
}.
Arguments parsed {W} _.
Arguments runnable {W} _.
Arguments validator_of {W} _.

(** What a node hands back to the graph: one message, or a list of
    messages ([respond] starts from the empty list [[]]). *)
Inductive NodeOutput :=
| Single (m : BaseMessage)
| Several (ms : list BaseMessage).

(** How one pass through the body of the [for] loop ends. *)
Inductive Control :=
| Return (response : NodeOutput)
| Continue (response : NodeOutput) (state : loc).

Section respond.
Context {W : Type}.

(** The list object a variable refers to. *)
Definition deref (σ : World W) (l : loc) : list BaseMessage :=
  default [] (heap σ !! l).

(** A new list object. *)
Definition alloc (ms : list BaseMessage) : M W loc :=
  λ σ, let l := fresh (dom (heap σ)) in
       ({| backend := backend σ; heap := <[l := ms]> (heap σ);
           calls := calls σ |}, Ok l).

(** [state + extra]: list concatenation builds a new list object and
    leaves both operands alone. *)
Definition list_add (state : loc) (extra : list BaseMessage) : M W loc :=
  λ σ, alloc (deref σ state ++ extra) σ.

(** [self.runnable.invoke({"messages": state})]. *)
Definition runnable_invoke (self : ResponderWithRetries W) (state : loc)
    : M W BaseMessage :=
  λ σ, let messages := deref σ state in
       let '(w', r) := runnable self messages (backend σ) in
       ({| backend := w'; heap := heap σ;
           calls := calls σ ++ [messages] |}, r).

(** [except ValidationError as e]: the handler rebinds the local
    [state]; any other exception leaves the function. *)
Definition except_ValidationError (e : Exn) (response : NodeOutput)
    (state : loc) : M W Control :=
  match e with
  | ValidationError repr_e =>
      state' ← list_add state [HumanMessage repr_e];
      mret (Continue response state')
  | _ => raise e
  end.

(** The body of the loop.  [response] is assigned before the validator
    runs, so a response that fails validation is kept. *)
Definition attempt_body (self : ResponderWithRetries W)
    (response : NodeOutput) (state : loc) : M W Control :=
  λ σ, match runnable_invoke self state σ with
       | (σ1, Raise e) => except_ValidationError e response state σ1
       | (σ1, Ok r) =>
           match validator_of self r with
           | Ok _ => (σ1, Ok (Return (Single r)))
           | Raise e => except_ValidationError e (Single r) state σ1
           end
       end.

Fixpoint respond_loop (self : ResponderWithRetries W) (attempts : list nat)
    (response : NodeOutput) (state : loc) : M W NodeOutput :=
  match attempts with
  | [] => mret response
  | attempt :: rest =>
      c ← attempt_body self response state;
      match c with
      | Return r => mret r
      | Continue response' state' => respond_loop self rest response' state'
      end
  end.

Definition respond (self : ResponderWithRetries W) (state : loc)
    : M W NodeOutput :=
  respond_loop self (seq 0 3) (Several []) state.
End respond.

(** ** Looping logic *)

Definition MAX_ITERATIONS : nat := 5.

(** [isinstance(m, (ToolMessage, AIMessage))]. *)
Definition isinstance_Tool_or_AI (m : BaseMessage) : bool :=
  match m with
  | ToolMessage _ _ | AIMessage _ _ => true
  | HumanMessage _ | SystemMessage _ => false
  end.

(** The loop [for m in state[::-1]] with its counter [i]. *)
Fixpoint count_until_break (reversed : list BaseMessage) (i : nat) : nat :=
  match reversed with
  | [] => i
  | m :: rest =>
      if negb (isinstance_Tool_or_AI m) then i
      else count_until_break rest (i + 1)
  end.

Definition _get_num_iterations (state : list BaseMessage) : nat :=
  count_until_break (reverse state) 0.

Inductive Node :=
| node_draft
| node_execute_tools
| node_revise
| END.

(** [num_iterations > MAX_ITERATIONS] is written with [<]. *)
Definition event_loop (state : list BaseMessage) : Node :=
  let num_iterations := _get_num_iterations state in
  if decide (MAX_ITERATIONS < num_iterations) then END
  else node_execute_tools.

(** ** The graph *)

(** The two responders of the notebook; the chains (prompt piped into
    the language model) are collaborators. *)
Definition first_responder {W}
    (initial_answer_chain : list BaseMessage → W → W * Result BaseMessage)
    : ResponderWithRetries W :=
  {| parsed := list AnswerQuestion;
     runnable := initial_answer_chain;
     validator_of := validator |}.

Definition revisor {W}
    (revision_chain : list BaseMessage → W → W * Result BaseMessage)
    : ResponderWithRetries W :=
  {| parsed := list ReviseAnswer;
     runnable := revision_chain;
     validator_of := revision_validator |}.

Section graph.
Context {W : Type}.
Variable tool_executor_batch :
  list ToolInvocation → W → W * Result (list Output).
Variables initial_answer_chain revision_chain :
  list BaseMessage → W → W * Result BaseMessage.

(** Modelled from the spec: the runtime of [MessageGraph] (not among
    the sources).  Each stage is given the conversation, and what it
    returns is appended to it. *)
Definition add_messages (state : list BaseMessage) (out : NodeOutput)
    : list BaseMessage :=
  match out with
  | Single m => state ++ [m]
  | Several ms => state ++ ms
  end.

(** Modelled from the spec: a stage receives a snapshot of the
    conversation, here a list object of its own. *)
Definition call_responder (self : ResponderWithRetries W)
    (state : list BaseMessage) : M W NodeOutput :=
  l ← alloc state;
  respond self l.

(** One transition.  The edges are those of the builder: [draft] to
    [execute_tools], [execute_tools] to [revise], and from [revise]
    wherever [event_loop] says. *)
Definition step (node : Node) (state : list BaseMessage)
    : M W (Node * list BaseMessage) :=
  match node with
  | node_draft =>
      out ← call_responder (first_responder initial_answer_chain) state;
      mret (node_execute_tools, add_messages state out)
  | node_execute_tools =>
      out ← execute_tools tool_executor_batch state;
      mret (node_revise, add_messages state (Several out))
  | node_revise =>
      out ← call_responder (revisor revision_chain) state;
      let state' := add_messages state out in
      mret (event_loop state', state')
  | END => mret (END, state)
  end.

(** Modelled from the spec: running the graph from a node, for at most
    [fuel] transitions.  [Some] is the conversation at [END]; [None]
    means the transitions ran out before [END] was reached. *)
Fixpoint run_from (fuel : nat) (node : Node) (state : list BaseMessage)
    : M W (option (list BaseMessage)) :=
  match node, fuel with
  | END, _ => mret (Some state)
  | _, 0 => mret None
  | _, S fuel' =>
      '(node', state') ← step node state;
      run_from fuel' node' state'
  end.

(** [builder.set_entry_point("draft")]. *)
Definition run (fuel : nat) (state : list BaseMessage)
    : M W (option (list BaseMessage)) :=
  run_from fuel node_draft state.
End graph.

(** ** Notions used in the statements *)

(** The query strings a tool call carries (none when the argument is
    missing). *)
Definition queries_of (c : ToolCall) : list string :=
  default [] (arg_search_queries (call_args c)).

Definition has_queries (c : ToolCall) : Prop :=
  is_Some (arg_search_queries (call_args c)).

(** Every (call-identifier, query) pair of a message, in order. *)
Definition operations (calls : list ToolCall) : list (string * string) :=
  c ← calls; (λ q, (call_id c, q)) <$> queries_of c.

Definition invocation (query : string) : ToolInvocation :=
  {| tool := "tavily_search_results_json"; tool_input := query |}.

(** The operations paired with their outputs, position by position. *)
Definition with_outputs (ops : list (string * string)) (outputs : list Output)
    : list (string * Output * ToolInvocation) :=
  zip_with (λ op output, (op.1, output, invocation op.2)) ops outputs.

(** The mappings of the tool messages tagged with [id_]. *)
Definition results_for (id_ : string) (msgs : list BaseMessage)
    : list (Dict.t Output) :=
  omap (λ m, match m with
             | ToolMessage d i => if decide (i = id_) then Some d else None
             | _ => None
             end) msgs.

(** The entry for a query under an identifier in [outputs_map]. *)
Definition lookup2 (id_ query : string) (outputs_map : Dict.t (Dict.t Output))
    : option Output :=
  Dict.get id_ outputs_map ≫= Dict.get query.

(** Every inner dict of [outputs_map] has one entry per key. *)
Definition inner_NoDup (outputs_map : Dict.t (Dict.t Output)) : Prop :=
  Forall (λ entry, NoDup (Dict.keys entry.2)) outputs_map.

(** A message that counts for the depth. *)
Definition generated (m : BaseMessage) : Prop := isinstance_Tool_or_AI m = true.

(** All the fields of the reflection are there. *)
Definition reflection_complete (args : Args) : Prop :=
  ∃ r, arg_reflection args = Some r ∧
       is_Some (arg_missing r) ∧ is_Some (arg_superfluous r).

(** A model message whose tool calls all carry search queries (any
    number of calls, any number of queries). *)
Definition model_message (m : BaseMessage) : Prop :=
  ∃ content tool_calls,
    m = AIMessage content tool_calls ∧ Forall has_queries tool_calls.

(** Every tool call of the message names the tool [name]. *)
Definition calls_named (name : string) (m : BaseMessage) : Prop :=
  Forall (λ c, call_type c = name) (parser_invoke m).

(** A chain that answers every prompt with such a message, its tool
    calls naming the one tool the chain was bound to. *)
Definition answers_always {W} (name : string)
    (chain : list BaseMessage → W → W * Result BaseMessage) : Prop :=
  ∀ messages w, ∃ w' m,
    chain messages w = (w', Ok m) ∧ model_message m ∧ calls_named name m.

(** Weaker assumptions on a chain: what it answers is a tool or model
    message, and what it raises is not a [ValidationError]. *)
Definition replies_generated {W}
    (chain : list BaseMessage → W → W * Result BaseMessage) : Prop :=
  ∀ messages w w' m, chain messages w = (w', Ok m) → generated m.

Definition raises_no_ValidationError {W}
    (chain : list BaseMessage → W → W * Result BaseMessage) : Prop :=
  ∀ messages w w' e,
    chain messages w = (w', Raise e) → ∀ repr_e, e ≠ ValidationError repr_e.

(** The outcome of a run that stopped: at [END], with a conversation
    that extends [state] and is deeper than [MAX_ITERATIONS], or by an
    exception; not by running out of transitions. *)
Definition stopped (state : list BaseMessage)
    (outcome : Result (option (list BaseMessage))) : Prop :=
  match outcome with
  | Ok (Some final) =>
      state `prefix_of` final ∧
      (MAX_ITERATIONS < _get_num_iterations final)%nat
  | Ok None => False
  | Raise _ => True
  end.

(** A chain that gives the same reply to every prompt. *)
Definition constant_chain {W} (reply : BaseMessage)
    (messages : list BaseMessage) (w : W) : W * Result BaseMessage :=
  (w, Ok reply).

(** ** Attempts of the responder *)

Section attempts.
Context {W : Type}.
Variable self : ResponderWithRetries W.
Implicit Types (σ : World W) (state : loc) (response : NodeOutput).

(** The world after the model was called on [state] and left its own
    state at [w1]. *)
Definition invoked σ state (w1 : W) : World W :=
  {| backend := w1; heap := heap σ;
     calls := calls σ ++ [deref σ state] |}.

(** An attempt on which the model answers [r] and [r] passes
    validation. *)
Definition passes_validation state σ (r : BaseMessage) σ' : Prop :=
  ∃ w1 v,
    runnable self (deref σ state) (backend σ) = (w1, Ok r) ∧
    validator_of self r = Ok v ∧
    σ' = invoked σ state w1.

(** An attempt on which the model answers [r], [r] fails validation,
    and the loop goes on with the list [state'] in the world [σ']. *)
Definition fails_validation state σ (r : BaseMessage) state' σ' : Prop :=
  ∃ w1 repr_e,
    runnable self (deref σ state) (backend σ) = (w1, Ok r) ∧
    validator_of self r = Raise (ValidationError repr_e) ∧
    list_add state [HumanMessage repr_e] (invoked σ state w1) = (σ', Ok state').

(** [k] attempts in a row that failed validation, starting from
    [response0], [state0] and [σ0]. *)
Inductive retries response0 state0 σ0 : nat → NodeOutput → loc → World W → Prop :=
| retries_0 : retries response0 state0 σ0 0 response0 state0 σ0
| retries_S k response state σ r state' σ' :
    retries response0 state0 σ0 k response state σ →
    fails_validation state σ r state' σ' →
    retries response0 state0 σ0 (S k) (Single r) state' σ'.
End attempts.

(** ** Scripted collaborators, for running the functions on examples *)

Record Script := {
  replies : list (Result BaseMessage);
  lookups : list Output;
}.

(** A language model that answers with the next scripted reply. *)
Definition scripted_chain (messages : list BaseMessage) (w : Script)
    : Script * Result BaseMessage :=
  match replies w with
  | [] => (w, Raise (BackendError "no reply left"))
  | r :: rest => ({| replies := rest; lookups := lookups w |}, r)
  end.

(** A search service that answers with the next scripted outcome. *)
Definition scripted_search (query : string) (w : Script) : Script * Output :=
  match lookups w with
  | [] => (w, ErrorValue "timeout")
  | o :: rest => ({| replies := replies w; lookups := rest |}, o)
  end.

(** A batch that hands back the first scripted outputs, one for each
    invocation. *)
Definition canned_batch {W} (outputs : list Output)
    (tool_invocations : list ToolInvocation) (w : W)
    : W * Result (list Output) :=
  (w, Ok (take (length tool_invocations) outputs)).

Definition sample_args (queries : option (list string)) : Args :=
  {| arg_answer := Some "Reflection lets a system learn from its errors.";
     arg_reflection :=
       Some {| arg_missing := Some "concrete examples";
               arg_superfluous := Some "the broad overview" |};
     arg_search_queries := queries;
     arg_references := None |}.

Definition sample_call (id_ : string) (queries : option (list string))
    : ToolCall :=
  {| call_type := "AnswerQuestion"; call_args := sample_args queries;
     call_id := id_ |}.

Definition found (url : string) : Output := Records [(url, "snippet")].

Definition initial_world {W} (w : W) : World W :=
  {| backend := w; heap := ∅; calls := [] |}.

Definition sample_calls : list ToolCall :=
  [sample_call "call_1" (Some ["q1"; "q2"; "q1"]);
   sample_call "call_2" (Some ["q3"])].

Definition sample_state : list BaseMessage :=
  [HumanMessage "Why is reflection useful in AI?"; AIMessage "" sample_calls].

Definition sample_outputs : list Output :=
  [found "u1"; found "u2"; ErrorValue "timeout"; found "u4"].

Definition flaky_search : Script :=
  {| replies := []; lookups := [found "u1"; ErrorValue "timeout"] |}.

(** A reply that fails validation (it has no [search_queries]) and one
    that passes. *)
Definition invalid_reply : BaseMessage :=
  AIMessage "" [sample_call "call_0" None].

Definition valid_reply : BaseMessage := AIMessage "" sample_calls.

Definition scripted_world (rs : list (Result BaseMessage)) : World Script :=
  {| backend := {| replies := rs; lookups := [] |};
     heap := {[ 1%positive := [HumanMessage "Why is reflection useful in AI?"] ]};
     calls := [] |}.

Definition sample_revision_args (queries : option (list string)) : Args :=
  {| arg_answer := Some "Reflection lets a system learn from its errors [1].";
     arg_reflection :=
       Some {| arg_missing := Some "a case study";
               arg_superfluous := Some "nothing" |};
     arg_search_queries := queries;
     arg_references := Some ["https://example.com"] |}.

(** ** Environment setup

    The first code cell.  [os.environ] is a map from names to values;
    [getpass.getpass] asks the user and gives back what was typed;
    [asked] records the prompts shown. *)

Record Shell (W : Type) := {
  environ : gmap string string;
  user : W;
  asked : list string;
}.
Arguments environ {W} _.
Arguments user {W} _.
Arguments asked {W} _.

(** The truth value of [os.environ.get(var)]: [None] and the empty
    string are false. *)
Definition truthy (value : option string) : bool :=
  match value with
  | Some v => negb (String.eqb v "")
  | None => false
  end.

Section environment.
Context {W : Type}.
Variable getpass : string → W → W * string.

Definition _set_if_undefined (var : string) (s : Shell W) : Shell W :=
  if truthy (environ s !! var) then s
  else
    let '(w', value) := getpass var (user s) in
    {| environ := <[var := value]> (environ s); user := w';
       asked := asked s ++ [var] |}.

(** [os.environ[name] = value]. *)
Definition environ_set (name value : string) (s : Shell W) : Shell W :=
  {| environ := <[name := value]> (environ s); user := user s;
     asked := asked s |}.

(** The statements of the cell, in order. *)
Definition setup_environment (s : Shell W) : Shell W :=
  let s := _set_if_undefined "LANGCHAIN_API_KEY" s in
  let s := environ_set "LANGCHAIN_TRACING_V2" "true" s in
  let s := environ_set "LANGCHAIN_PROJECT" "Reflexion" s in
  let s := _set_if_undefined "OPENAI_API_KEY" s in
  _set_if_undefined "TAVILY_API_KEY" s.
End environment.

(** The names the cell touches. *)
Definition setup_names : list string :=
  ["LANGCHAIN_API_KEY"; "LANGCHAIN_TRACING_V2"; "LANGCHAIN_PROJECT";
   "OPENAI_API_KEY"; "TAVILY_API_KEY"].

(** ** Reading the final answer

    The last cell: [parser.invoke(step[END][-1])[0]["args"]["answer"]],
    on the conversation the graph ended with. *)
Definition final_answer (final_state : list BaseMessage) : Result string :=
  match last final_state with
  | None => Raise IndexError
  | Some m =>
      match parser_invoke m with
      | [] => Raise IndexError
      | parsed_call :: _ =>
          match arg_answer (call_args parsed_call) with
          | None => Raise (KeyError "answer")
          | Some a => Ok a
          end
      end
  end.

(** ** More notions used in the statements *)

(** The elements of a list in the order of their first occurrence. *)
Fixpoint first_occurrences_into (seen : list string) (l : list string)
    : list string :=
  match l with
  | [] => seen
  | x :: l' =>
      first_occurrences_into (if decide (x ∈ seen) then seen else seen ++ [x]) l'
  end.

Definition first_occurrences (l : list string) : list string :=
  first_occurrences_into [] l.

(** The identifiers of the tool messages of a list, in order. *)
Definition tool_call_ids (msgs : list BaseMessage) : list string :=
  omap (λ m, match m with
             | ToolMessage _ i => Some i
             | _ => None
             end) msgs.

(** The query strings dispatched for an identifier, in order. *)
Definition queries_for (id_ : string) (ops : list (string * string))
    : list string :=
  (filter (λ op, op.1 = id_) ops).*2.

(** What the dispatcher reads of a tool call. *)
Definition dispatch_view (c : ToolCall) : string * option (list string) :=
  (call_id c, arg_search_queries (call_args c)).

(** No inner dict of [outputs_map] is empty. *)
Definition inner_nonempty (outputs_map : Dict.t (Dict.t Output)) : Prop :=
  Forall (λ entry, entry.2 ≠ []) outputs_map.

(** The prompt of attempt number [j], given the error texts so far. *)
Definition prompt_of (messages : list BaseMessage) (errors : list string)
    (j : nat) : list BaseMessage :=
  messages ++ (HumanMessage <$> take j errors).

(** A chain that raises the same exception on every prompt. *)
Definition raising_chain {W} (e : Exn)
    (messages : list BaseMessage) (w : W) : W * Result BaseMessage :=
  (w, Raise e).

(** A user who types the same secret at every prompt. *)
Definition typing_user (secret : string) (prompt : string) (w : unit)
    : unit * string :=
  (w, secret).

Definition sample_shell : Shell unit :=
  {| environ := {[ "OPENAI_API_KEY" := "sk-1"; "HOME" := "/root" ]};
     user := (); asked := [] |}.

(** The tool calls of [sample_calls] in other words: the same
    identifiers and queries under another tool name, with other
    arguments beside them. *)
Definition sample_revision_calls : list ToolCall :=
  [{| call_type := "ReviseAnswer";
      call_args := sample_revision_args (Some ["q1"; "q2"; "q1"]);
      call_id := "call_1" |};
   {| call_type := "ReviseAnswer";
      call_args := sample_revision_args (Some ["q3"]);
      call_id := "call_2" |}].

(** A reply of the revision chain that passes its validator. *)
Definition revised_reply : BaseMessage :=
  AIMessage "Revised." sample_revision_calls.

Definition other_state : list BaseMessage :=
  [SystemMessage "You are an expert researcher.";
   HumanMessage "What is reflection?";
   AIMessage "Revised." sample_revision_calls].

(** A reply that calls a tool the first responder's parser does not
    know, with arguments that would build an [AnswerQuestion]. *)
Definition foreign_reply : BaseMessage :=
  AIMessage "" [{| call_type := "ReviseAnswer";
                   call_args := sample_args (Some ["q1"]);
                   call_id := "call_9" |}].

(** A reply whose second tool call lacks its [search_queries]. *)
Definition half_reply : BaseMessage :=
  AIMessage "" [sample_call "call_1" (Some ["q1"]); sample_call "call_0" None].

Definition plain_world : World unit :=
  {| backend := ();
     heap := {[ 1%positive := [HumanMessage "Why is reflection useful in AI?"] ]};
     calls := [] |}.

(** * Facts *)

Module DictFacts.
Import Dict.
Section DictFacts.
Context {V : Type}.
Implicit Types (d : Dict.t V) (k : string) (v : V).

Lemma keys_set k v d :
  keys (set k v d) = if decide (k ∈ keys d) then keys d else keys d ++ [k].
Proof.
  induction d as [|[k' v'] d IH]; unfold keys in *; csimpl in *.
  - done.
  - destruct (decide (k = k')) as [->|Hne]; csimpl.
    + rewrite decide_True; [done | left].
    + rewrite IH. destruct (decide (k ∈ d.*1)) as [Hin|Hin].
      * rewrite decide_True; [done | by right].
      * rewrite decide_False; [done |].
        intros [?|?]%elem_of_cons; done.
Qed.

Lemma get_set k k' v d :
  get k' (set k v d) = if decide (k' = k) then Some v else get k' d.
Proof.
  induction d as [|[k0 v0] d IH]; simpl.
  - by repeat case_decide.
  - destruct (decide (k = k0)) as [->|Hne]; simpl.
    + by repeat case_decide.
    + rewrite IH. repeat case_decide; congruence.
Qed.

Lemma get_None k d : get k d = None ↔ k ∉ keys d.
Proof.
  induction d as [|[k' v] d IH]; unfold keys in *; csimpl in *.
  - split; [intros _; apply not_elem_of_nil | done].
  - case_decide as H; subst.
    + split; [done | intros []; left].
    + rewrite IH, not_elem_of_cons. tauto.
Qed.

Lemma get_Some_elem k v d : get k d = Some v → (k, v) ∈ d.
Proof.
  induction d as [|[k' v'] d IH]; simpl; [done |].
  case_decide; [intros [= ->]; subst; left | intros; right; auto].
Qed.

Lemma elem_get k v d : NoDup (keys d) → (k, v) ∈ d → get k d = Some v.
Proof.
  induction d as [|[k' v'] d IH]; unfold keys in *; csimpl in *.
  - intros _ []%elem_of_nil.
  - intros [Hk Hd]%NoDup_cons [[= -> ->]|Hin]%elem_of_cons.
    + by rewrite decide_True.
    + rewrite decide_False; [auto |].
      intros ->. apply Hk. apply list_elem_of_fmap. by exists (k', v).
Qed.

Lemma NoDup_keys_set k v d : NoDup (keys d) → NoDup (keys (set k v d)).
Proof.
  intros Hd. rewrite keys_set. case_decide as H; [done |].
  apply NoDup_app. split_and!; [done | | apply NoDup_singleton].
  intros x Hx ->%list_elem_of_singleton. done.
Qed.
End DictFacts.
End DictFacts.

(** ** Flattening the tool calls *)

Lemma append_queries_eq call_id queries ids tool_invocations :
  append_queries call_id queries ids tool_invocations =
    (ids ++ replicate (length queries) call_id,
     tool_invocations ++ (invocation <$> queries)).
Proof.
  revert ids tool_invocations.
  induction queries as [|q queries IH]; intros ids invs; simpl.
  - by rewrite !app_nil_r.
  - rewrite IH. by rewrite <- !app_assoc.
Qed.

Lemma operations_cons c calls :
  operations (c :: calls) =
    ((λ q, (call_id c, q)) <$> queries_of c) ++ operations calls.
Proof. done. Qed.

Lemma flatten_calls_ok calls ids tool_invocations :
  Forall has_queries calls →
  flatten_calls calls ids tool_invocations =
    Ok (ids ++ (operations calls).*1,
        tool_invocations ++ (invocation <$> (operations calls).*2)).
Proof.
  intros Hall. revert ids tool_invocations.
  induction Hall as [|c calls [qs Hqs] _ IH]; intros ids invs;
    cbn [flatten_calls].
  - by rewrite !app_nil_r.
  - rewrite Hqs, append_queries_eq, IH, operations_cons.
    unfold queries_of. rewrite Hqs. cbn [default].
    rewrite !fmap_app, <- !list_fmap_compose, <- !app_assoc.
    do 3 f_equal.
    clear. induction qs as [|q qs IH]; simpl; [done | by rewrite IH].
Qed.

Lemma flatten_calls_KeyError calls ids tool_invocations :
  ¬ Forall has_queries calls →
  flatten_calls calls ids tool_invocations = Raise (KeyError "search_queries").
Proof.
  revert ids tool_invocations.
  induction calls as [|c calls IH]; intros ids invs Hnot; simpl.
  - destruct Hnot. constructor.
  - destruct (arg_search_queries (call_args c)) as [qs|] eqn:Hqs; [|done].
    rewrite append_queries_eq. apply IH.
    intros Hall. apply Hnot. constructor; [by exists qs | done].
Qed.

Lemma length_operations calls :
  length (operations calls) = sum_list (length ∘ queries_of <$> calls).
Proof.
  induction calls as [|c calls IH]; [done |].
  rewrite operations_cons, length_app, length_fmap, IH. done.
Qed.

Lemma operations_queries calls :
  (operations calls).*2 = mjoin (queries_of <$> calls).
Proof.
  induction calls as [|c calls IH]; [done |].
  rewrite operations_cons, fmap_app, IH. csimpl. f_equal.
  rewrite <- list_fmap_compose. apply list_fmap_id.
Qed.

Lemma elem_of_operations id_ q calls :
  (id_, q) ∈ operations calls ↔
  ∃ c, c ∈ calls ∧ call_id c = id_ ∧ q ∈ queries_of c.
Proof.
  unfold operations. rewrite list_elem_of_bind. split.
  - intros (c & Hq & Hc). apply list_elem_of_fmap in Hq as (q' & [= -> ->] & Hq').
    eauto.
  - intros (c & Hc & <- & Hq). exists c. split; [|done].
    apply list_elem_of_fmap. eauto.
Qed.

(** ** Zipping ids, outputs and invocations *)

Lemma zip3_lookup ids outputs tool_invocations i :
  zip3 ids outputs tool_invocations !! i =
    id_ ← ids !! i; output ← outputs !! i; invocation ← tool_invocations !! i;
    Some (id_, output, invocation).
Proof.
  revert outputs tool_invocations i.
  induction ids as [|a ids IH]; intros outs invs i; [done |].
  destruct outs as [|o outs].
  { destruct i as [|i]; simpl; [done | by destruct (ids !! i)]. }
  destruct invs as [|v invs].
  { destruct i as [|i]; simpl; [done |].
    destruct (ids !! i); [|done]. simpl. by destruct (outs !! i). }
  destruct i as [|i]; simpl; [done | apply IH].
Qed.

Lemma zip3_operations ops outputs :
  length outputs = length ops →
  zip3 ops.*1 outputs (invocation <$> ops.*2) = with_outputs ops outputs.
Proof.
  unfold with_outputs. revert outputs.
  induction ops as [|[a q] ops IH]; intros [|o outs] Hlen; simplify_eq/=;
    [done.. |].
  by rewrite IH.
Qed.

(** ** Grouping the outputs *)

Section grouping.
Import Dict DictFacts.
Implicit Types (outputs_map : Dict.t (Dict.t Output)).
Implicit Types (zipped : list (string * Output * ToolInvocation)).

Lemma group_outputs_app zipped1 zipped2 outputs_map :
  group_outputs (zipped1 ++ zipped2) outputs_map =
    group_outputs zipped2 (group_outputs zipped1 outputs_map).
Proof.
  revert outputs_map.
  induction zipped1 as [|[[a o] v] zipped1 IH]; intros m; [done | apply IH].
Qed.

Lemma lookup2_store outputs_map id_ output invocation id' q' :
  lookup2 id' q' (store_output outputs_map id_ output invocation) =
    if decide (id' = id_ ∧ q' = tool_input invocation) then Some output
    else lookup2 id' q' outputs_map.
Proof.
  unfold lookup2, store_output. rewrite get_set.
  destruct (decide (id' = id_)) as [->|Hne]; simpl.
  - rewrite get_set. destruct (decide (q' = tool_input invocation)).
    + by rewrite decide_True.
    + rewrite decide_False by tauto. by destruct (get id_ outputs_map).
  - by rewrite decide_False by tauto.
Qed.

Lemma keys_store outputs_map id_ output invocation id' :
  id' ∈ keys (store_output outputs_map id_ output invocation) ↔
  id' = id_ ∨ id' ∈ keys outputs_map.
Proof.
  unfold store_output. rewrite keys_set. case_decide as Hin.
  - split; [tauto | intros [->|?]; done].
  - rewrite elem_of_app, list_elem_of_singleton. tauto.
Qed.

Lemma NoDup_store outputs_map id_ output invocation :
  NoDup (keys outputs_map) →
  NoDup (keys (store_output outputs_map id_ output invocation)).
Proof. apply NoDup_keys_set. Qed.

Lemma elem_of_set (k : string) (v : Dict.t Output) d entry :
  entry ∈ set k v d → entry = (k, v) ∨ entry ∈ d.
Proof.
  induction d as [|[k' v'] d IH]; simpl.
  - intros ->%list_elem_of_singleton. by left.
  - case_decide; subst.
    + intros [->|?]%elem_of_cons; [by left | right; by right].
    + intros [->|[->|?]%IH]%elem_of_cons; [right; left | by left |].
      right; by right.
Qed.

Lemma inner_NoDup_store outputs_map id_ output invocation :
  inner_NoDup outputs_map →
  inner_NoDup (store_output outputs_map id_ output invocation).
Proof.
  unfold inner_NoDup. rewrite !Forall_forall. intros Hm entry Hin.
  apply elem_of_set in Hin as [->|Hin]; [|by apply Hm]. simpl.
  apply NoDup_keys_set.
  destruct (get id_ outputs_map) as [d|] eqn:Hget; simpl.
  - apply get_Some_elem in Hget. by apply (Hm (id_, d)).
  - apply NoDup_nil_2.
Qed.

Lemma lookup2_group zipped outputs_map id_ q :
  (∀ t, t ∈ zipped → ¬ (t.1.1 = id_ ∧ tool_input t.2 = q)) →
  lookup2 id_ q (group_outputs zipped outputs_map) = lookup2 id_ q outputs_map.
Proof.
  revert outputs_map.
  induction zipped as [|[[a o] v] zipped IH]; intros m Hno; [done |].
  simpl. rewrite IH.
  - rewrite lookup2_store, decide_False; [done |].
    intros [-> ->]. apply (Hno (a, o, v)); [left | done].
  - intros t Ht. apply Hno. by right.
Qed.

(** The entry of a pair is the output of its last occurrence. *)
Lemma lookup2_group_last zipped1 zipped2 id_ output invocation outputs_map :
  (∀ t, t ∈ zipped2 →
        ¬ (t.1.1 = id_ ∧ tool_input t.2 = tool_input invocation)) →
  lookup2 id_ (tool_input invocation)
    (group_outputs (zipped1 ++ (id_, output, invocation) :: zipped2)
       outputs_map) = Some output.
Proof.
  intros Hno. rewrite group_outputs_app. simpl.
  rewrite lookup2_group by done.
  rewrite lookup2_store. by rewrite decide_True.
Qed.

Lemma lookup2_group_is_Some zipped outputs_map id_ q :
  is_Some (lookup2 id_ q (group_outputs zipped outputs_map)) ↔
  is_Some (lookup2 id_ q outputs_map) ∨
  ∃ t, t ∈ zipped ∧ t.1.1 = id_ ∧ tool_input t.2 = q.
Proof.
  revert outputs_map.
  induction zipped as [|[[a o] v] zipped IH]; intros m; simpl.
  - split; [by left | intros [?|(t & []%elem_of_nil & _)]; done].
  - rewrite IH, lookup2_store. split.
    + intros [Hsome|(t & Ht & Heq)].
      * case_decide as Hd; [|by left].
        destruct Hd as [-> ->]. right. exists (a, o, v). split; [left | done].
      * right. exists t. split; [by right | done].
    + intros [Hsome|(t & [->|Ht]%elem_of_cons & Ha & Hq)].
      * left. case_decide; [done | done].
      * left. simpl in *. subst. by rewrite decide_True.
      * right. eauto.
Qed.

Lemma keys_group zipped outputs_map id_ :
  id_ ∈ keys (group_outputs zipped outputs_map) ↔
  id_ ∈ keys outputs_map ∨ ∃ t, t ∈ zipped ∧ t.1.1 = id_.
Proof.
  revert outputs_map.
  induction zipped as [|[[a o] v] zipped IH]; intros m; simpl.
  - split; [by left | intros [?|(t & []%elem_of_nil & _)]; done].
  - rewrite IH, keys_store. split.
    + intros [[->|?]|(t & Ht & Heq)].
      * right. exists (a, o, v). split; [left | done].
      * by left.
      * right. exists t. split; [by right | done].
    + intros [?|(t & [->|Ht]%elem_of_cons & Ha)].
      * left; by right.
      * left; left. done.
      * right. eauto.
Qed.

Lemma NoDup_group zipped outputs_map :
  NoDup (keys outputs_map) → NoDup (keys (group_outputs zipped outputs_map)).
Proof.
  revert outputs_map.
  induction zipped as [|[[a o] v] zipped IH]; intros m Hm; [done |].
  simpl. by apply IH, NoDup_store.
Qed.

Lemma inner_NoDup_group zipped outputs_map :
  inner_NoDup outputs_map → inner_NoDup (group_outputs zipped outputs_map).
Proof.
  revert outputs_map.
  induction zipped as [|[[a o] v] zipped IH]; intros m Hm; [done |].
  simpl. by apply IH, inner_NoDup_store.
Qed.

(** The tool messages of a map with one entry per identifier. *)
Lemma results_for_tool_messages outputs_map id_ :
  NoDup (keys outputs_map) →
  results_for id_ (tool_messages outputs_map) =
    match get id_ outputs_map with Some d => [d] | None => [] end.
Proof.
  unfold results_for, tool_messages.
  induction outputs_map as [|[k d] m IH]; intros Hnd; [done |].
  unfold keys in *. csimpl in *. apply NoDup_cons in Hnd as [Hk Hm].
  destruct (decide (k = id_)) as [->|Hne].
  - rewrite decide_True by done. f_equal.
    rewrite IH by done.
    destruct (get id_ m) as [d'|] eqn:Hget; [|done].
    apply get_Some_elem in Hget. destruct Hk.
    apply list_elem_of_fmap. by exists (id_, d').
  - rewrite (decide_False (P := id_ = k)) by done. by apply IH.
Qed.

Lemma tool_messages_are_tool outputs_map :
  Forall (λ m, ∃ d id_, m = ToolMessage d id_) (tool_messages outputs_map).
Proof.
  unfold tool_messages. apply Forall_fmap, Forall_forall.
  intros [k d] _. simpl. eauto.
Qed.
End grouping.

(** ** What [execute_tools] emits *)

Section execute_tools_facts.
Import Dict DictFacts.
Context {W : Type}.
Variable tool_executor_batch :
  list ToolInvocation → W → W * Result (list Output).

(** With every [search_queries] argument present, the function is one
    batch over the flattened operations followed by the grouping. *)
Lemma execute_tools_unfold state tool_invocation :
  last state = Some tool_invocation →
  Forall has_queries (parser_invoke tool_invocation) →
  execute_tools tool_executor_batch state =
    let ops := operations (parser_invoke tool_invocation) in
    outputs ← lift (tool_executor_batch (invocation <$> ops.*2));
    mret (tool_messages
            (group_outputs
               (zip3 ops.*1 outputs (invocation <$> ops.*2)) [])).
Proof.
  intros Hlast Hall. unfold execute_tools. rewrite Hlast.
  by rewrite (flatten_calls_ok _ [] []).
Qed.

Lemma zipped_hit ops outputs id_ q :
  length outputs = length ops →
  (∃ t, t ∈ with_outputs ops outputs ∧ t.1.1 = id_ ∧ tool_input t.2 = q) ↔
  (id_, q) ∈ ops.
Proof.
  unfold with_outputs. intros Hlen. split.
  - intros (t & Ht & <- & <-).
    apply elem_of_zip_with in Ht as ([a q] & o & -> & Hop & _). done.
  - intros [i Hi]%list_elem_of_lookup_1.
    destruct (lookup_lt_is_Some_2 outputs i) as [o Ho].
    { rewrite Hlen. by eapply lookup_lt_Some. }
    exists (id_, o, invocation q). split; [|done].
    eapply list_elem_of_lookup_2, lookup_zip_with_Some.
    by exists (id_, q), o.
Qed.

Lemma grouped_keys ops outputs id_ d :
  length outputs = length ops →
  get id_ (group_outputs (with_outputs ops outputs) []) = Some d →
  NoDup (keys d) ∧ ∀ q, q ∈ keys d ↔ (id_, q) ∈ ops.
Proof.
  intros Hlen Hget. split.
  - pose proof (inner_NoDup_group (with_outputs ops outputs)
      [] (Forall_nil_2 _)) as Hinner.
    unfold inner_NoDup in Hinner. rewrite Forall_forall in Hinner.
    apply (Hinner (id_, d)). by apply get_Some_elem.
  - intros q. rewrite <- (zipped_hit ops outputs) by done.
    pose proof (lookup2_group_is_Some (with_outputs ops outputs)
      [] id_ q) as Hsome.
    unfold lookup2 at 1 in Hsome. rewrite Hget in Hsome. simpl in Hsome.
    split.
    + intros Hq. destruct (get q d) as [o|] eqn:Hq'.
      * destruct Hsome as [[[? [=]]|Ht] _]; [by exists o | done].
      * by apply get_None in Hq'.
    + intros Ht. destruct Hsome as [_ [o Ho]]; [by right |].
      apply dec_stable. intros Hq%get_None. congruence.
Qed.

Lemma grouped_ids ops outputs id_ :
  length outputs = length ops →
  is_Some (get id_ (group_outputs (with_outputs ops outputs) [])) ↔
  ∃ q, (id_, q) ∈ ops.
Proof.
  intros Hlen.
  pose proof (keys_group (with_outputs ops outputs) [] id_) as Hkeys.
  split.
  - intros [d Hd].
    destruct Hkeys as [Hk _]. destruct Hk as [[]%elem_of_nil|(t & Ht & Hid)].
    { apply dec_stable. intros Hnot%get_None. congruence. }
    exists (tool_input t.2). apply (zipped_hit ops outputs); [done |].
    by exists t.
  - intros [q Hq]. apply (zipped_hit ops outputs) in Hq as (t & Ht & Hid & _);
      [|done].
    destruct (get id_ _) eqn:Hget; [by eexists |].
    apply get_None in Hget. destruct Hget. apply Hkeys. right. by exists t.
Qed.

Lemma operations_nonempty_call calls id_ :
  (∃ q, (id_, q) ∈ operations calls) ↔
  ∃ c, c ∈ calls ∧ call_id c = id_ ∧ queries_of c ≠ [].
Proof.
  split.
  - intros [q (c & Hc & Hid & Hq)%elem_of_operations].
    exists c. split_and!; [done.. |]. intros Hnil. rewrite Hnil in Hq.
    by apply elem_of_nil in Hq.
  - intros (c & Hc & Hid & Hne). destruct (queries_of c) as [|q qs] eqn:Hqs;
      [done |].
    exists q. apply elem_of_operations. exists c. rewrite Hqs.
    split_and!; [done.. | left].
Qed.
End execute_tools_facts.

Section execute_tools_theorems.
Import Dict DictFacts.
Context {W : Type}.
Variable tool_executor_batch :
  list ToolInvocation → W → W * Result (list Output).

Lemma with_outputs_split ops1 op ops2 outputs :
  length outputs = length (ops1 ++ op :: ops2) →
  ∃ o, outputs !! length ops1 = Some o ∧
    with_outputs (ops1 ++ op :: ops2) outputs =
      with_outputs ops1 (take (length ops1) outputs) ++
      (op.1, o, invocation op.2) ::
      with_outputs ops2 (drop (S (length ops1)) outputs).
Proof.
  intros Hlen. rewrite length_app in Hlen. simpl in Hlen.
  destruct (lookup_lt_is_Some_2 outputs (length ops1)) as [o Ho]; [lia |].
  exists o. split; [done |].
  rewrite <- (take_drop_middle outputs (length ops1) o) at 1 by done.
  unfold with_outputs. rewrite zip_with_app; [done |].
  rewrite length_take. lia.
Qed.

(** With one output per operation, the batch's outputs end up in the
    tool messages as follows: the message of an identifier maps a
    query to the output at the position of the last operation with
    this identifier and this query. *)
Lemma execute_tools_entries state tool_invocation σ w' outputs :
  let ops := operations (parser_invoke tool_invocation) in
  let msgs := tool_messages (group_outputs (with_outputs ops outputs) []) in
  last state = Some tool_invocation →
  Forall has_queries (parser_invoke tool_invocation) →
  tool_executor_batch (invocation <$> ops.*2) (backend σ) = (w', Ok outputs) →
  length outputs = length ops →
  execute_tools tool_executor_batch state σ = (with_backend w' σ, Ok msgs) ∧
  ∀ ops1 id_ q ops2,
    ops = ops1 ++ (id_, q) :: ops2 → (id_, q) ∉ ops2 →
    ∃ d, results_for id_ msgs = [d] ∧ NoDup (keys d) ∧
         (∀ q', q' ∈ keys d ↔ (id_, q') ∈ ops) ∧
         get q d = outputs !! length ops1.
Proof.
  intros ops msgs Hlast Hall Hbatch Hlen. split.
  - rewrite (execute_tools_unfold _ _ _ Hlast Hall).
    fold ops. cbv [mbind M_bind lift mret M_ret]. rewrite Hbatch.
    by rewrite zip3_operations.
  - intros ops1 id_ q ops2 Hops Hlast_occ.
    destruct (grouped_ids ops outputs id_ Hlen) as [_ [d Hd]].
    { exists q. rewrite Hops. apply elem_of_app. right; left. }
    exists d. unfold msgs.
    rewrite results_for_tool_messages by apply NoDup_group, NoDup_nil_2.
    rewrite Hd. split; [done |].
    destruct (grouped_keys ops outputs id_ d Hlen Hd) as [Hnd Hkeys].
    split_and!; [done.. |].
    destruct (with_outputs_split ops1 (id_, q) ops2 outputs) as (o & Ho & Hsplit).
    { by rewrite <- Hops. }
    rewrite Ho.
    pose proof (lookup2_group_last
      (with_outputs ops1 (take (length ops1) outputs))
      (with_outputs ops2 (drop (S (length ops1)) outputs))
      id_ o (invocation q) []) as Hl.
    simpl in Hl, Hsplit. rewrite <- Hsplit, <- Hops in Hl.
    unfold lookup2 in Hl. rewrite Hd in Hl. simpl in Hl. apply Hl.
    intros t Ht [Hid Hq]. apply Hlast_occ.
    apply elem_of_zip_with in Ht as ([a q'] & o' & -> & Hop & _).
    simpl in *. by subst.
Qed.
End execute_tools_theorems.

Section dispatcher_claims.
Import Dict DictFacts.
Context {W : Type}.
Variable tool_executor_batch :
  list ToolInvocation → W → W * Result (list Output).

(** C1 (as amended).  Let the last message of the conversation carry
    tool calls that all have a [search_queries] argument, and let the
    batch return one output per operation.  Then [execute_tools] emits
    tool messages only; for every call-identifier that carries at
    least one query string there is exactly one tool message, its
    mapping has one entry per key and its key set is exactly the query
    strings of that identifier; an identifier without any query string
    gets no tool message; and a message with zero tool calls gives
    zero tool messages. *)
Theorem execute_tools_one_result_per_identifier
    state tool_invocation σ w' outputs :
  let calls := parser_invoke tool_invocation in
  last state = Some tool_invocation →
  Forall has_queries calls →
  tool_executor_batch (invocation <$> (operations calls).*2) (backend σ)
    = (w', Ok outputs) →
  length outputs = length (operations calls) →
  ∃ msgs,
    execute_tools tool_executor_batch state σ = (with_backend w' σ, Ok msgs) ∧
    Forall (λ m, ∃ d id_, m = ToolMessage d id_) msgs ∧
    (∀ id_,
       (∃ c, c ∈ calls ∧ call_id c = id_ ∧ queries_of c ≠ []) →
       ∃ d, results_for id_ msgs = [d] ∧ NoDup (keys d) ∧
            ∀ q, q ∈ keys d ↔
                 ∃ c, c ∈ calls ∧ call_id c = id_ ∧ q ∈ queries_of c) ∧
    (∀ id_,
       ¬ (∃ c, c ∈ calls ∧ call_id c = id_ ∧ queries_of c ≠ []) →
       results_for id_ msgs = []) ∧
    (calls = [] → msgs = []).
Proof.
  intros calls Hlast Hall Hbatch Hlen.
  destruct (execute_tools_entries tool_executor_batch state tool_invocation
              σ w' outputs Hlast Hall Hbatch Hlen) as [Hrun Hentries].
  eexists. split; [exact Hrun |]. fold calls in Hentries |- *.
  split_and!.
  - apply tool_messages_are_tool.
  - intros id_ [q Hq]%operations_nonempty_call.
    pose proof Hq as Hq'.
    apply list_elem_of_split_r in Hq' as (ops1 & ops2 & Hops & Hnot).
    destruct (Hentries ops1 id_ q ops2 Hops Hnot) as (d & Hd & Hnd & Hkeys & _).
    exists d. split_and!; [done.. |].
    intros q'. rewrite Hkeys. apply elem_of_operations.
  - intros id_ Hnone.
    rewrite results_for_tool_messages by apply NoDup_group, NoDup_nil_2.
    destruct (get id_ _) as [d|] eqn:Hd; [|done].
    destruct Hnone. apply operations_nonempty_call.
    apply (grouped_ids (operations calls) outputs id_ Hlen). by exists d.
  - intros Hnil. by rewrite Hnil.
Qed.

(** C6.  With every [search_queries] argument present, the flattening
    gives one invocation per query string: as many invocations as
    there are query strings over all tool calls, the input of each
    invocation being one query string, in order, each next to the
    identifier of its call; and this list is what the batch is run
    on, once. *)
Theorem execute_tools_dispatches_each_query state tool_invocation :
  let calls := parser_invoke tool_invocation in
  last state = Some tool_invocation →
  Forall has_queries calls →
  ∃ ids tool_invocations,
    flatten_calls calls [] [] = Ok (ids, tool_invocations) ∧
    length tool_invocations = sum_list (length ∘ queries_of <$> calls) ∧
    tool_input <$> tool_invocations = mjoin (queries_of <$> calls) ∧
    zip ids (tool_input <$> tool_invocations) = operations calls ∧
    execute_tools tool_executor_batch state =
      (outputs ← lift (tool_executor_batch tool_invocations);
       mret (tool_messages
               (group_outputs (zip3 ids outputs tool_invocations) []))).
Proof.
  intros calls Hlast Hall.
  exists (operations calls).*1, (invocation <$> (operations calls).*2).
  split_and!.
  - by rewrite (flatten_calls_ok _ [] []).
  - by rewrite !length_fmap, length_operations.
  - rewrite <- list_fmap_compose, <- operations_queries.
    apply list_fmap_id.
  - rewrite <- list_fmap_compose.
    change (tool_input ∘ invocation) with (@id string).
    rewrite list_fmap_id. apply zip_fst_snd.
  - by apply execute_tools_unfold.
Qed.
End dispatcher_claims.

Section duplicate_queries.
Import Dict DictFacts.
Context {W : Type}.
Variable tool_executor_batch :
  list ToolInvocation → W → W * Result (list Output).

Lemma entries_bounded (d : Dict.t Output) id_ (ops : list (string * string)) :
  NoDup (keys d) →
  (∀ q, q ∈ keys d → (id_, q) ∈ ops) →
  (length d ≤ length ops)%nat.
Proof.
  intros Hnd Hsub.
  assert (length d = length ((λ q, (id_, q)) <$> keys d)) as ->.
  { unfold keys. by rewrite !length_fmap. }
  apply submseteq_length, NoDup_submseteq.
  - apply NoDup_fmap; [|done]. by intros ?? [=].
  - intros op (q & -> & Hq)%list_elem_of_fmap. by apply Hsub.
Qed.

(** C10.  Let the operations of a message be [ops1], then the pair
    [(id_, q)], then [ops2] without that pair, so that the pair's last
    occurrence is at position [length ops1].  Every occurrence is
    dispatched (the batch is run on as many invocations as there are
    query strings), but the one tool message of [id_] has a single
    entry for [q], holding the
    output at that last position and no other; its mapping has at most
    as many entries as operations were dispatched for [id_], and
    fewer when the pair also occurs in [ops1]. *)
Theorem execute_tools_keeps_last_duplicate
    state tool_invocation σ w' outputs ops1 id_ q ops2 :
  let calls := parser_invoke tool_invocation in
  let dispatched := filter (λ op, op.1 = id_) (operations calls) in
  last state = Some tool_invocation →
  Forall has_queries calls →
  tool_executor_batch (invocation <$> (operations calls).*2) (backend σ)
    = (w', Ok outputs) →
  length outputs = length (operations calls) →
  operations calls = ops1 ++ (id_, q) :: ops2 →
  (id_, q) ∉ ops2 →
  ∃ msgs d,
    execute_tools tool_executor_batch state σ = (with_backend w' σ, Ok msgs) ∧
    length (invocation <$> (operations calls).*2)
      = sum_list (length ∘ queries_of <$> calls) ∧
    results_for id_ msgs = [d] ∧
    NoDup (keys d) ∧
    get q d = outputs !! length ops1 ∧
    (∀ o, (q, o) ∈ d → outputs !! length ops1 = Some o) ∧
    (length d ≤ length dispatched)%nat ∧
    ((id_, q) ∈ ops1 → (length d < length dispatched)%nat).
Proof.
  intros calls dispatched Hlast Hall Hbatch Hlen Hops Hnot.
  destruct (execute_tools_entries tool_executor_batch state tool_invocation
              σ w' outputs Hlast Hall Hbatch Hlen) as [Hrun Hentries].
  fold calls in Hentries.
  destruct (Hentries ops1 id_ q ops2 Hops Hnot)
    as (d & Hd & Hnd & Hkeys & Hget).
  eexists _, d. split; [exact Hrun |].
  split_and!; [| done.. | | |].
  - by rewrite !length_fmap, length_operations.
  - intros o Ho. rewrite <- Hget. by apply elem_get.
  - apply (entries_bounded d id_); [done |].
    intros q' Hq'. apply list_elem_of_filter. split; [done |].
    by apply Hkeys.
  - intros Hdup. unfold dispatched. rewrite Hops.
    rewrite filter_app, filter_cons_True by done.
    rewrite length_app. simpl.
    enough (length d ≤ length (filter (λ op, op.1 = id_) (ops1 ++ ops2)))%nat
      as Hle.
    { rewrite filter_app, length_app in Hle. lia. }
    apply (entries_bounded d id_); [done |].
    intros q' Hq'. apply list_elem_of_filter. split; [done |].
    apply Hkeys in Hq'. rewrite Hops in Hq'.
    apply elem_of_app in Hq' as [?|[[= ->]|?]%elem_of_cons];
      apply elem_of_app; auto.
Qed.
End duplicate_queries.

(** ** Failures inside a batch *)

Section isolated_batch.
Import Dict DictFacts.
Context {W : Type}.
Variable search : string → W → W * Output.

Lemma batch_isolated_Ok tool_invocations w :
  ∃ w' outputs,
    batch_isolated search tool_invocations w = (w', Ok outputs) ∧
    length outputs = length tool_invocations.
Proof.
  revert w. induction tool_invocations as [|v invs IH]; intros w; simpl.
  - by exists w, [].
  - destruct (search (tool_input v) w) as [w1 o].
    destruct (IH w1) as (w2 & outs & -> & Hlen).
    exists w2, (o :: outs). simpl. by rewrite Hlen.
Qed.

(** The last operation with the identifier and the query of the
    operation at position [i]. *)
Lemma last_occurrence (ops : list (string * string)) i op :
  ops !! i = Some op →
  ∃ j, (i ≤ j)%nat ∧ ops !! j = Some op ∧
       ∀ j', (j < j')%nat → ops !! j' ≠ Some op.
Proof.
  intros Hop.
  assert (op ∈ drop i ops) as Hin.
  { apply (list_elem_of_lookup_2 _ 0). by rewrite lookup_drop, Nat.add_0_r. }
  apply list_elem_of_split_r in Hin as (l1 & l2 & Hdrop & Hnot).
  assert (ops = (take i ops ++ l1) ++ op :: l2) as Hops.
  { by rewrite <- app_assoc, <- Hdrop, take_drop. }
  assert (length (take i ops) = i) as Hi.
  { rewrite length_take. apply Nat.min_l, Nat.lt_le_incl.
    by eapply lookup_lt_Some. }
  exists (i + length l1). split_and!.
  - lia.
  - rewrite Hops at 1. rewrite list_lookup_middle; [done |].
    rewrite length_app. lia.
  - intros j' Hj' Hlook. apply Hnot.
    rewrite Hops in Hlook. rewrite lookup_app_r in Hlook
      by (rewrite length_app; lia).
    rewrite length_app, Hi in Hlook.
    destruct (j' - (i + length l1)) as [|n] eqn:Hn; [lia |].
    simpl in Hlook. by eapply list_elem_of_lookup_2.
Qed.

(** C8 (as amended).  Over the isolating batch, with every
    [search_queries] argument present, [execute_tools] does not raise,
    whatever lookups fail, and there is one output per operation.  The
    output of an operation, records or error value alike, is the entry
    of its query in the one tool message of its identifier, provided no
    later operation of the batch has the same identifier and the same
    query string; so the records of every lookup that succeeded are
    there unless such a later operation exists.  In general the entry
    of an operation's query under its identifier is the output of the
    last operation with that identifier and that query string, success
    or failure. *)
Theorem execute_tools_keeps_successful_lookups state tool_invocation σ :
  let ops := operations (parser_invoke tool_invocation) in
  last state = Some tool_invocation →
  Forall has_queries (parser_invoke tool_invocation) →
  ∃ w' outputs msgs,
    batch_isolated search (invocation <$> ops.*2) (backend σ)
      = (w', Ok outputs) ∧
    length outputs = length ops ∧
    execute_tools (batch_isolated search) state σ
      = (with_backend w' σ, Ok msgs) ∧
    (∀ i id_ q o,
       ops !! i = Some (id_, q) →
       outputs !! i = Some o →
       (∀ j, (i < j)%nat → ops !! j ≠ Some (id_, q)) →
       ∃ d, results_for id_ msgs = [d] ∧ get q d = Some o) ∧
    (∀ i id_ q,
       ops !! i = Some (id_, q) →
       ∃ j o d,
         (i ≤ j)%nat ∧ ops !! j = Some (id_, q) ∧
         (∀ j', (j < j')%nat → ops !! j' ≠ Some (id_, q)) ∧
         outputs !! j = Some o ∧
         results_for id_ msgs = [d] ∧ get q d = Some o).
Proof.
  intros ops Hlast Hall.
  destruct (batch_isolated_Ok (invocation <$> ops.*2) (backend σ))
    as (w' & outputs & Hbatch & Hlen).
  rewrite !length_fmap in Hlen.
  destruct (execute_tools_entries (batch_isolated search) state
              tool_invocation σ w' outputs Hlast Hall Hbatch Hlen)
    as [Hrun Hentries].
  fold ops in Hentries.
  assert (∀ i id_ q o,
            ops !! i = Some (id_, q) →
            outputs !! i = Some o →
            (∀ j, (i < j)%nat → ops !! j ≠ Some (id_, q)) →
            ∃ d, results_for id_
                   (tool_messages (group_outputs (with_outputs ops outputs) []))
                 = [d] ∧ get q d = Some o) as Hkept.
  { intros i id_ q o Hop Hout Hlater.
    destruct (Hentries (take i ops) id_ q (drop (S i) ops))
      as (d & Hd & _ & _ & Hget).
    - by rewrite take_drop_middle.
    - intros [j Hj]%list_elem_of_lookup_1. rewrite lookup_drop in Hj.
      apply (Hlater (S i + j)); [lia | done].
    - exists d. split; [done |].
      rewrite Hget, length_take, Nat.min_l; [done |].
      apply Nat.lt_le_incl. by eapply lookup_lt_Some. }
  exists w', outputs. eexists. split_and!; [done.. | exact Hrun | exact Hkept |].
  intros i id_ q Hop.
  destruct (last_occurrence ops i (id_, q) Hop) as (j & Hij & Hj & Hlater).
  destruct (lookup_lt_is_Some_2 outputs j) as [o Ho].
  { rewrite Hlen. by eapply lookup_lt_Some. }
  destruct (Hkept j id_ q o Hj Ho Hlater) as (d & Hd & Hget).
  by exists j, o, d.
Qed.
End isolated_batch.

(** ** The dispatcher on examples *)

Lemma sample_calls_have_queries : Forall has_queries sample_calls.
Proof. repeat constructor; by eexists. Qed.

Lemma execute_tools_one_result_per_identifier_witness :
  ∃ msgs d,
    execute_tools (canned_batch sample_outputs) sample_state (initial_world ())
      = (initial_world (), Ok msgs) ∧
    results_for "call_1" msgs = [d] ∧
    ∀ q, q ∈ Dict.keys d ↔
         ∃ c, c ∈ sample_calls ∧ call_id c = "call_1" ∧ q ∈ queries_of c.
Proof.
  destruct (execute_tools_one_result_per_identifier
              (canned_batch sample_outputs) sample_state
              (AIMessage "" sample_calls) (initial_world ()) () sample_outputs)
    as (msgs & Hrun & _ & Hone & _).
  - reflexivity.
  - exact sample_calls_have_queries.
  - reflexivity.
  - reflexivity.
  - destruct (Hone "call_1") as (d & Hd & _ & Hkeys).
    + exists (sample_call "call_1" (Some ["q1"; "q2"; "q1"])).
      split; [left | split; [reflexivity | discriminate]].
    + exists msgs, d. split; [exact Hrun | split; [exact Hd | exact Hkeys]].
Defined.

(** C1 as stated fails: the identifier of a tool call with an empty
    list of queries appears in the message, and no tool message is
    emitted for it. *)
Lemma execute_tools_no_result_for_empty_call :
  "call_1" ∈ call_id <$> [sample_call "call_1" (Some [])] ∧
  execute_tools (canned_batch [])
    [HumanMessage "task"; AIMessage "" [sample_call "call_1" (Some [])]]
    (initial_world ())
  = (initial_world (), Ok []).
Proof. split; [left | reflexivity]. Qed.

Lemma execute_tools_dispatches_each_query_witness :
  ∃ ids tool_invocations,
    flatten_calls sample_calls [] [] = Ok (ids, tool_invocations) ∧
    length tool_invocations = 4 ∧
    tool_input <$> tool_invocations = ["q1"; "q2"; "q1"; "q3"].
Proof.
  destruct (execute_tools_dispatches_each_query
              (canned_batch (W := ()) sample_outputs) sample_state
              (AIMessage "" sample_calls))
    as (ids & invs & Hflat & Hlen & Hinputs & _).
  - reflexivity.
  - exact sample_calls_have_queries.
  - exists ids, invs. split; [exact Hflat | split; [exact Hlen | exact Hinputs]].
Defined.

Lemma execute_tools_keeps_last_duplicate_witness :
  ∃ msgs d,
    execute_tools (canned_batch sample_outputs) sample_state (initial_world ())
      = (initial_world (), Ok msgs) ∧
    results_for "call_1" msgs = [d] ∧
    Dict.get "q1" d = Some (ErrorValue "timeout") ∧
    (length d < 3)%nat.
Proof.
  destruct (execute_tools_keeps_last_duplicate
              (canned_batch sample_outputs) sample_state
              (AIMessage "" sample_calls) (initial_world ()) () sample_outputs
              [("call_1", "q1"); ("call_1", "q2")] "call_1" "q1"
              [("call_2", "q3")])
    as (msgs & d & Hrun & _ & Hd & _ & Hget & _ & _ & Hfewer).
  - reflexivity.
  - exact sample_calls_have_queries.
  - reflexivity.
  - reflexivity.
  - reflexivity.
  - intros [[=]|[]%elem_of_nil]%elem_of_cons.
  - exists msgs, d. split; [exact Hrun | split; [exact Hd | split; [exact Hget |]]].
    apply Hfewer. left.
Defined.

Lemma execute_tools_keeps_successful_lookups_witness :
  ∃ msgs d,
    execute_tools (batch_isolated scripted_search) sample_state
      (initial_world
         {| replies := []; lookups := [ErrorValue "timeout"; found "u2"] |})
      = (initial_world {| replies := []; lookups := [] |}, Ok msgs) ∧
    results_for "call_1" msgs = [d] ∧
    Dict.get "q2" d = Some (found "u2").
Proof.
  destruct (execute_tools_keeps_successful_lookups scripted_search
              sample_state (AIMessage "" sample_calls)
              (initial_world
                 {| replies := [];
                    lookups := [ErrorValue "timeout"; found "u2"] |}))
    as (w' & outputs & msgs & Hbatch & _ & Hrun & Hkept & _).
  - reflexivity.
  - exact sample_calls_have_queries.
  - injection Hbatch as <- <-.
    destruct (Hkept 1%nat "call_1" "q2" (found "u2")) as (d & Hd & Hget).
    + reflexivity.
    + reflexivity.
    + intros [|[|[|[|j]]]] Hj; try lia; discriminate.
    + exists msgs, d. split; [exact Hrun | split; [exact Hd | exact Hget]].
Defined.

(** C8 as stated fails: the same query twice under one identifier, the
    first lookup succeeding and the second failing; the records of the
    first lookup are in no tool message. *)
Lemma execute_tools_later_failure_replaces_success :
  batch_isolated scripted_search [invocation "q"; invocation "q"] flaky_search
    = ({| replies := []; lookups := [] |},
       Ok [found "u1"; ErrorValue "timeout"]) ∧
  execute_tools (batch_isolated scripted_search)
    [HumanMessage "task"; AIMessage "" [sample_call "call_1" (Some ["q"; "q"])]]
    (initial_world flaky_search)
  = (initial_world {| replies := []; lookups := [] |},
     Ok [ToolMessage [("q", ErrorValue "timeout")] "call_1"]).
Proof. split; reflexivity. Qed.

(** ** The iteration depth *)

Lemma count_until_break_generated l rest i :
  Forall generated l →
  count_until_break (l ++ rest) i = count_until_break rest (i + length l).
Proof.
  intros Hl. revert i. induction Hl as [|m l Hm _ IH]; intros i; simpl.
  - by rewrite Nat.add_0_r.
  - rewrite Hm. simpl. rewrite IH. f_equal. lia.
Qed.

Lemma count_until_break_stop rest i :
  (∀ m, head rest = Some m → isinstance_Tool_or_AI m = false) →
  count_until_break rest i = i.
Proof.
  destruct rest as [|m rest]; simpl; [done |].
  intros Hm. by rewrite (Hm m eq_refl).
Qed.

Lemma count_until_break_shift l i :
  count_until_break l i = i + count_until_break l 0.
Proof.
  revert i. induction l as [|m l IH]; intros i; simpl; [lia |].
  destruct (isinstance_Tool_or_AI m); simpl; [|lia].
  rewrite (IH (i + 1)), (IH 1). lia.
Qed.

Lemma get_num_iterations_app state suffix :
  Forall generated suffix →
  _get_num_iterations (state ++ suffix) =
    length suffix + _get_num_iterations state.
Proof.
  intros Hs. unfold _get_num_iterations. rewrite reverse_app.
  rewrite count_until_break_generated by by apply Forall_reverse.
  rewrite length_reverse. apply count_until_break_shift.
Qed.

Lemma get_num_iterations_suffix prefix suffix :
  Forall generated suffix →
  (∀ m, last prefix = Some m → isinstance_Tool_or_AI m = false) →
  _get_num_iterations (prefix ++ suffix) = length suffix.
Proof.
  intros Hs Hp. rewrite get_num_iterations_app by done.
  unfold _get_num_iterations. rewrite count_until_break_stop; [lia |].
  intros m Hm. apply Hp. by rewrite <- head_reverse.
Qed.

Lemma trailing_run_exists state :
  ∃ prefix suffix,
    state = prefix ++ suffix ∧ Forall generated suffix ∧
    ∀ m, last prefix = Some m → isinstance_Tool_or_AI m = false.
Proof.
  induction state as [|m state IH] using rev_ind.
  - exists [], []. split_and!; [done | constructor | done].
  - destruct (isinstance_Tool_or_AI m) eqn:Hm.
    + destruct IH as (prefix & suffix & -> & Hs & Hp).
      exists prefix, (suffix ++ [m]). split_and!; [by rewrite app_assoc | | done].
      apply Forall_app. split; [done | by constructor].
    + exists (state ++ [m]), []. split_and!; [by rewrite app_nil_r | constructor |].
      intros m'. rewrite last_snoc. by intros [= <-].
Qed.

(** C2.  The depth computed by [_get_num_iterations] is the length of
    the trailing run of messages that are tool or model messages: if the
    conversation is a prefix that is empty or ends in a message of
    another kind, followed by messages that all are tool or model
    messages, the depth is the number of the latter (every conversation
    splits this way); in particular a human message resets the count to
    what comes after it.  [event_loop], a function of the conversation
    alone, answers [END] exactly when the depth exceeds
    [MAX_ITERATIONS], which is 5, and [execute_tools] otherwise; the
    node that follows [revise] is the answer of [event_loop] on the
    conversation [revise] leaves. *)
Theorem event_loop_by_iteration_depth :
  MAX_ITERATIONS = 5 ∧
  (∀ prefix suffix,
     Forall generated suffix →
     (∀ m, last prefix = Some m → isinstance_Tool_or_AI m = false) →
     _get_num_iterations (prefix ++ suffix) = length suffix) ∧
  (∀ state, ∃ prefix suffix,
     state = prefix ++ suffix ∧ Forall generated suffix ∧
     ∀ m, last prefix = Some m → isinstance_Tool_or_AI m = false) ∧
  (∀ before content suffix,
     Forall generated suffix →
     _get_num_iterations (before ++ HumanMessage content :: suffix)
       = length suffix) ∧
  (∀ state, event_loop state = END ↔ (5 < _get_num_iterations state)%nat) ∧
  (∀ state,
     event_loop state = node_execute_tools ↔
     (_get_num_iterations state ≤ 5)%nat) ∧
  (∀ W (tool_executor_batch : list ToolInvocation → W → W * Result (list Output))
     initial_answer_chain revision_chain state σ σ' node' state',
     step tool_executor_batch initial_answer_chain revision_chain
       node_revise state σ = (σ', Ok (node', state')) →
     node' = event_loop state').
Proof.
  split_and!.
  - done.
  - apply get_num_iterations_suffix.
  - apply trailing_run_exists.
  - intros before content suffix Hs.
    rewrite (cons_middle _ before suffix), app_assoc.
    apply get_num_iterations_suffix; [done |].
    intros m. rewrite last_snoc. by intros [= <-].
  - intros state. unfold event_loop, MAX_ITERATIONS. case_decide; split;
      (done || lia).
  - intros state. unfold event_loop, MAX_ITERATIONS. case_decide; split;
      (done || lia).
  - intros W batch chain1 chain2 state σ σ' node' state'. simpl.
    unfold call_responder, alloc. cbv [mbind M_bind mret M_ret].
    destruct (respond _ _ _) as [σ2 [out|e]]; intros Hstep; by simplify_eq.
Qed.

Lemma event_loop_by_iteration_depth_witness :
  _get_num_iterations
    [HumanMessage "first task"; AIMessage "" []; HumanMessage "second task";
     AIMessage "" sample_calls; ToolMessage [("q1", found "u1")] "call_1";
     AIMessage "" []] = 3.
Proof.
  destruct event_loop_by_iteration_depth as (_ & _ & _ & Hreset & _ & _ & _).
  apply (Hreset [HumanMessage "first task"; AIMessage "" []] "second task"
           [AIMessage "" sample_calls; ToolMessage [("q1", found "u1")] "call_1";
            AIMessage "" []]).
  repeat constructor.
Defined.

(** ** The responder: attempts *)

Section respond_facts.
Context {W : Type}.
Variable self : ResponderWithRetries W.
Implicit Types (σ : World W) (state : loc) (response : NodeOutput).

Lemma attempt_body_passes response state σ r σ' :
  passes_validation self state σ r σ' →
  attempt_body self response state σ = (σ', Ok (Return (Single r))).
Proof.
  intros (w1 & v & Hrun & Hval & ->).
  unfold attempt_body, runnable_invoke. rewrite Hrun. fold (invoked σ state w1).
  by rewrite Hval.
Qed.

Lemma attempt_body_fails response state σ r state' σ' :
  fails_validation self state σ r state' σ' →
  attempt_body self response state σ = (σ', Ok (Continue (Single r) state')).
Proof.
  intros (w1 & e & Hrun & Hval & Hadd).
  unfold attempt_body, runnable_invoke. rewrite Hrun. fold (invoked σ state w1).
  rewrite Hval. unfold except_ValidationError.
  cbv [mbind M_bind mret M_ret]. by rewrite Hadd.
Qed.

Lemma attempt_body_raises response state σ w1 e :
  runnable self (deref σ state) (backend σ) = (w1, Raise e) →
  (∀ repr_e, e ≠ ValidationError repr_e) →
  attempt_body self response state σ = (invoked σ state w1, Raise e).
Proof.
  intros Hrun Hother.
  unfold attempt_body, runnable_invoke. rewrite Hrun. fold (invoked σ state w1).
  unfold except_ValidationError. destruct e; try done.
  by destruct (Hother repr).
Qed.

Lemma respond_loop_retries response0 state0 σ0 k response state σ :
  retries self response0 state0 σ0 k response state σ →
  ∀ attempts rest, length attempts = k →
    respond_loop self (attempts ++ rest) response0 state0 σ0 =
      respond_loop self rest response state σ.
Proof.
  induction 1 as [|k response state σ r state' σ' _ IH Hfail];
    intros attempts rest Hlen.
  - by destruct attempts.
  - destruct attempts as [|a attempts _] using rev_ind; [done |].
    rewrite length_app in Hlen. simpl in Hlen.
    rewrite <- app_assoc. simpl. rewrite IH by lia.
    cbn [respond_loop]. cbv [mbind M_bind].
    by rewrite (attempt_body_fails _ _ _ _ _ _ Hfail).
Qed.

Lemma retries_calls response0 state0 σ0 k response state σ :
  retries self response0 state0 σ0 k response state σ →
  ∃ sent, calls σ = calls σ0 ++ sent ∧ length sent = k.
Proof.
  induction 1 as [|k response state σ r state' σ' _ IH Hfail].
  - exists []. by rewrite app_nil_r.
  - destruct IH as (sent & Hsent & Hlen).
    destruct Hfail as (w1 & e & _ & _ & Hadd).
    unfold list_add, alloc in Hadd. injection Hadd as <- _. simpl.
    exists (sent ++ [deref σ state]). rewrite Hsent, length_app. simpl.
    split; [by rewrite app_assoc | lia].
Qed.

(** The prompts sent by the loop: at most one per attempt. *)
Lemma respond_loop_calls attempts response state σ :
  ∃ sent,
    calls (respond_loop self attempts response state σ).1 = calls σ ++ sent ∧
    (length sent ≤ length attempts)%nat.
Proof.
  revert response state σ.
  induction attempts as [|a attempts IH]; intros response state σ.
  - exists []. simpl. by rewrite app_nil_r.
  - cbn [respond_loop]. cbv [mbind M_bind].
    assert (∃ σ1 c, attempt_body self response state σ = (σ1, c) ∧
              calls σ1 = calls σ ++ [deref σ state]) as (σ1 & c & Hbody & Hc).
    { unfold attempt_body, runnable_invoke.
      destruct (runnable self (deref σ state) (backend σ)) as [w1 [r|e]].
      - destruct (validator_of self r) as [v|e]; [by eexists _, _ |].
        unfold except_ValidationError. destruct e; by eexists _, _.
      - unfold except_ValidationError. destruct e; by eexists _, _. }
    rewrite Hbody. destruct c as [[r|response' state']|e]; simpl.
    + exists [deref σ state]. split; [done | simpl; lia].
    + destruct (IH response' state' σ1) as (sent & Hsent & Hlen).
      exists (deref σ state :: sent). rewrite Hsent, Hc, <- app_assoc.
      split; [done | simpl; lia].
    + exists [deref σ state]. split; [done | simpl; lia].
Qed.

(** The list objects that exist before an attempt are the same after
    it. *)
Lemma attempt_body_heap response state σ :
  heap σ ⊆ heap (attempt_body self response state σ).1.
Proof.
  assert (∀ e response σ1, heap σ1 ⊆
            heap (except_ValidationError e response state σ1).1) as Hexcept.
  { intros e response' σ1. unfold except_ValidationError.
    destruct e; try done. simpl.
    apply insert_subseteq, not_elem_of_dom, is_fresh. }
  unfold attempt_body, runnable_invoke.
  destruct (runnable self (deref σ state) (backend σ)) as [w1 [r|e]].
  - destruct (validator_of self r) as [v|e]; [done |].
    apply (Hexcept e (Single r) (invoked σ state w1)).
  - apply (Hexcept e response (invoked σ state w1)).
Qed.

Lemma respond_loop_heap attempts response state σ :
  heap σ ⊆ heap (respond_loop self attempts response state σ).1.
Proof.
  revert response state σ.
  induction attempts as [|a attempts IH]; intros response state σ; [done |].
  cbn [respond_loop]. cbv [mbind M_bind].
  pose proof (attempt_body_heap response state σ) as Hbody.
  destruct (attempt_body self response state σ) as [σ1 [[r|response' state']|e]];
    simpl in *; [done | | done].
  etrans; [exact Hbody | apply IH].
Qed.

Lemma fails_validation_heap state σ r state' σ' :
  fails_validation self state σ r state' σ' →
  (state' ∉ dom (heap σ)) ∧ (heap σ ⊆ heap σ') ∧
  ∃ repr_e,
    validator_of self r = Raise (ValidationError repr_e) ∧
    deref σ' state' = deref σ state ++ [HumanMessage repr_e].
Proof.
  intros (w1 & repr_e & _ & Hval & Hadd).
  unfold list_add, alloc in Hadd. injection Hadd as <- <-. simpl.
  split_and!.
  - apply is_fresh.
  - apply insert_subseteq, not_elem_of_dom, is_fresh.
  - exists repr_e. split; [done |].
    unfold deref at 1. simpl. by rewrite lookup_insert_eq.
Qed.

Lemma retries_heap response0 state0 σ0 k response state σ :
  retries self response0 state0 σ0 k response state σ →
  heap σ0 ⊆ heap σ.
Proof.
  induction 1 as [|k response state σ r state' σ' _ IH Hfail]; [done |].
  etrans; [exact IH |]. by apply fails_validation_heap in Hfail as (_ & ? & _).
Qed.
End respond_facts.

(** ** The responder: the claims *)

Section respond_claims.
Context {W : Type}.
Variable self : ResponderWithRetries W.

(** C3.  [respond] calls the model at most 3 times.  If, after fewer
    than 3 attempts that failed validation, an attempt passes
    validation, its response is returned at once, with no further
    call; if all 3 attempts fail validation, the response of the third
    is returned, as a value and not as an exception. *)
Theorem respond_at_most_three_attempts state σ :
  (∃ sent, calls (respond self state σ).1 = calls σ ++ sent ∧
           (length sent ≤ 3)%nat) ∧
  (∀ k response state' σ' r σ'',
     retries self (Several []) state σ k response state' σ' →
     (k < 3)%nat →
     passes_validation self state' σ' r σ'' →
     respond self state σ = (σ'', Ok (Single r)) ∧
     length (calls σ'') = length (calls σ) + S k) ∧
  (∀ response state2 σ2 r state3 σ3,
     retries self (Several []) state σ 2 response state2 σ2 →
     fails_validation self state2 σ2 r state3 σ3 →
     respond self state σ = (σ3, Ok (Single r)) ∧
     length (calls σ3) = length (calls σ) + 3).
Proof.
  split_and!.
  - apply (respond_loop_calls self (seq 0 3)).
  - intros k response state' σ' r σ'' Hretries Hk Hpass. split.
    + unfold respond.
      replace (seq 0 3) with (seq 0 k ++ k :: seq (S k) (3 - S k)).
      2:{ change (k :: seq (S k) (3 - S k)) with (seq k (S (3 - S k))).
          rewrite <- seq_app. f_equal. lia. }
      rewrite (respond_loop_retries self _ _ _ _ _ _ _ Hretries)
        by apply length_seq.
      cbn [respond_loop]. cbv [mbind M_bind].
      by rewrite (attempt_body_passes self _ _ _ _ _ Hpass).
    + destruct (retries_calls self _ _ _ _ _ _ _ Hretries) as (sent & Hs & Hl).
      destruct Hpass as (w1 & v & _ & _ & ->). simpl.
      rewrite Hs, !length_app. simpl. lia.
  - intros response state2 σ2 r state3 σ3 Hretries Hfail.
    pose proof (retries_S self _ _ _ _ _ _ _ _ _ _ Hretries Hfail) as H3.
    split.
    + unfold respond.
      rewrite <- (app_nil_r (seq 0 3)).
      rewrite (respond_loop_retries self _ _ _ _ _ _ _ H3) by done.
      done.
    + destruct (retries_calls self _ _ _ _ _ _ _ H3) as (sent & Hs & Hl).
      rewrite Hs, length_app. lia.
Qed.

(** C4.  Every list object that exists when [respond] is called,
    the caller's conversation among them, has the same content when
    [respond] returns or raises, however many attempts failed.  After
    an attempt that failed validation the loop goes on with a list
    object that did not exist before: the list of the failed attempt
    followed by the human message that describes the error. *)
Theorem respond_leaves_caller_list_unchanged state σ l ms :
  heap σ !! l = Some ms →
  heap (respond self state σ).1 !! l = Some ms ∧
  ∀ k response state1 σ1 r state2 σ2,
    retries self (Several []) state σ k response state1 σ1 →
    fails_validation self state1 σ1 r state2 σ2 →
    state2 ≠ l ∧ heap σ2 !! l = Some ms ∧
    ∃ repr_e,
      validator_of self r = Raise (ValidationError repr_e) ∧
      deref σ2 state2 = deref σ1 state1 ++ [HumanMessage repr_e].
Proof.
  intros Hl. split.
  - eapply lookup_weaken; [exact Hl |]. apply respond_loop_heap.
  - intros k response state1 σ1 r state2 σ2 Hretries Hfail.
    apply retries_heap in Hretries.
    apply fails_validation_heap in Hfail as (Hfresh & Hsub & Hcopy).
    split_and!; [| | done].
    + intros ->. apply Hfresh, elem_of_dom. exists ms.
      by eapply lookup_weaken.
    + eapply lookup_weaken; [exact Hl |]. by etrans.
Qed.

(** C9.  If, after fewer than 3 attempts that failed validation, the
    call to the model raises an exception that is not a
    [ValidationError], [respond] raises that exception; the call that
    raised is the last call made. *)
Theorem respond_propagates_other_errors state σ k response state' σ' w1 e :
  retries self (Several []) state σ k response state' σ' →
  (k < 3)%nat →
  runnable self (deref σ' state') (backend σ') = (w1, Raise e) →
  (∀ repr_e, e ≠ ValidationError repr_e) →
  respond self state σ = (invoked σ' state' w1, Raise e) ∧
  length (calls (invoked σ' state' w1)) = length (calls σ) + S k.
Proof.
  intros Hretries Hk Hrun Hother. split.
  - unfold respond.
    replace (seq 0 3) with (seq 0 k ++ k :: seq (S k) (3 - S k)).
    2:{ change (k :: seq (S k) (3 - S k)) with (seq k (S (3 - S k))).
        rewrite <- seq_app. f_equal. lia. }
    rewrite (respond_loop_retries self _ _ _ _ _ _ _ Hretries)
      by apply length_seq.
    cbn [respond_loop]. cbv [mbind M_bind].
    by rewrite (attempt_body_raises self _ _ _ _ _ Hrun Hother).
  - destruct (retries_calls self _ _ _ _ _ _ _ Hretries) as (sent & Hs & Hl).
    simpl. rewrite Hs, !length_app. simpl. lia.
Qed.
End respond_claims.

Lemma invalid_reply_fails state σ rs :
  replies (backend σ) = Ok invalid_reply :: rs →
  ∃ state' σ',
    fails_validation (first_responder scripted_chain) state σ invalid_reply
      state' σ' ∧
    replies (backend σ') = rs.
Proof.
  intros Hrs. eexists _, _. split.
  - eexists _, _. split_and!.
    + simpl. unfold scripted_chain. rewrite Hrs. reflexivity.
    + reflexivity.
    + reflexivity.
  - reflexivity.
Qed.

Lemma respond_at_most_three_attempts_witness :
  ∃ σ3,
    respond (first_responder scripted_chain) 1%positive
      (scripted_world [Ok invalid_reply; Ok invalid_reply; Ok invalid_reply])
      = (σ3, Ok (Single invalid_reply)) ∧
    length (calls σ3) = 3.
Proof.
  destruct (invalid_reply_fails 1%positive
              (scripted_world [Ok invalid_reply; Ok invalid_reply; Ok invalid_reply])
              [Ok invalid_reply; Ok invalid_reply] eq_refl)
    as (state1 & σ1 & Hfail1 & Hrs1).
  destruct (invalid_reply_fails state1 σ1 [Ok invalid_reply] Hrs1)
    as (state2 & σ2 & Hfail2 & Hrs2).
  destruct (invalid_reply_fails state2 σ2 [] Hrs2)
    as (state3 & σ3 & Hfail3 & _).
  exists σ3.
  destruct (respond_at_most_three_attempts (first_responder scripted_chain)
              1%positive
              (scripted_world [Ok invalid_reply; Ok invalid_reply; Ok invalid_reply]))
    as (_ & _ & Hall).
  apply (Hall (Single invalid_reply) state2 σ2 invalid_reply state3 σ3);
    [|exact Hfail3].
  eapply retries_S; [|exact Hfail2].
  eapply retries_S; [|exact Hfail1].
  apply retries_0.
Defined.

Lemma respond_leaves_caller_list_unchanged_witness :
  heap (respond (first_responder scripted_chain) 1%positive
          (scripted_world [Ok invalid_reply; Ok invalid_reply; Ok valid_reply])).1
    !! 1%positive
  = Some [HumanMessage "Why is reflection useful in AI?"].
Proof.
  eapply proj1, (respond_leaves_caller_list_unchanged (first_responder scripted_chain)
           1%positive
           (scripted_world [Ok invalid_reply; Ok invalid_reply; Ok valid_reply])
           1%positive).
  reflexivity.
Defined.

Lemma respond_propagates_other_errors_witness :
  ∃ σ',
    replies (backend σ') = [Ok valid_reply] ∧
    respond (first_responder scripted_chain) 1%positive
      (scripted_world
         [Ok invalid_reply; Raise (BackendError "rate limit"); Ok valid_reply])
      = (σ', Raise (BackendError "rate limit")) ∧
    length (calls σ') = 2.
Proof.
  destruct (invalid_reply_fails 1%positive
              (scripted_world
                 [Ok invalid_reply; Raise (BackendError "rate limit");
                  Ok valid_reply])
              [Raise (BackendError "rate limit"); Ok valid_reply] eq_refl)
    as (state1 & σ1 & Hfail1 & Hrs1).
  exists (invoked σ1 state1 {| replies := [Ok valid_reply];
                               lookups := lookups (backend σ1) |}).
  split; [reflexivity |].
  apply (respond_propagates_other_errors (first_responder scripted_chain)
           1%positive
           (scripted_world
              [Ok invalid_reply; Raise (BackendError "rate limit");
               Ok valid_reply])
           1 (Single invalid_reply) state1 σ1
           {| replies := [Ok valid_reply]; lookups := lookups (backend σ1) |}
           (BackendError "rate limit")).
  - eapply retries_S; [apply retries_0 | exact Hfail1].
  - lia.
  - simpl. unfold scripted_chain. rewrite Hrs1. reflexivity.
  - discriminate.
Defined.

(** ** Schema validation *)

Lemma AnswerQuestion_validate_Ok args :
  (∃ a, AnswerQuestion_validate args = Ok a) ↔
  is_Some (arg_answer args) ∧ reflection_complete args ∧
  is_Some (arg_search_queries args).
Proof.
  unfold AnswerQuestion_validate, AnswerQuestion_fields, reflection_complete,
    Reflection_fields, required.
  split.
  - intros [a Ha].
    destruct (arg_answer args) as [a'|], (arg_reflection args) as [[[m|] [s|]]|],
      (arg_search_queries args) as [q|]; simplify_eq/=.
    split_and!; [by eexists | | by eexists].
    eexists. split_and!; [done | by eexists..].
  - intros ([a Ha] & (r & Hr & [m Hm] & [s Hs]) & [q Hq]).
    rewrite Ha, Hr, Hq, Hm, Hs. by eexists.
Qed.

Lemma AnswerQuestion_validate_queries args a :
  AnswerQuestion_validate args = Ok a →
  arg_search_queries args = Some (search_queries a).
Proof.
  unfold AnswerQuestion_validate, AnswerQuestion_fields, Reflection_fields,
    required.
  destruct (arg_answer args) as [a'|], (arg_reflection args) as [[[m|] [s|]]|],
    (arg_search_queries args) as [q|]; simpl; intros [=]; by subst.
Qed.

Lemma AnswerQuestion_validate_Raise args e :
  AnswerQuestion_validate args = Raise e → ∃ repr_e, e = ValidationError repr_e.
Proof.
  unfold AnswerQuestion_validate.
  destruct (AnswerQuestion_fields args); intros [=]; subst. by eexists.
Qed.

Lemma ReviseAnswer_validate_Raise args e :
  ReviseAnswer_validate args = Raise e → ∃ repr_e, e = ValidationError repr_e.
Proof.
  unfold ReviseAnswer_validate.
  destruct (ReviseAnswer_fields args); intros [=]; subst. by eexists.
Qed.

Lemma ReviseAnswer_validate_Ok args :
  (∃ a, ReviseAnswer_validate args = Ok a) ↔
  (∃ a, AnswerQuestion_validate args = Ok a) ∧ is_Some (arg_references args).
Proof.
  unfold ReviseAnswer_validate, ReviseAnswer_fields, AnswerQuestion_validate,
    required.
  split.
  - intros [a Ha].
    destruct (AnswerQuestion_fields args) as [errors|a'],
      (arg_references args) as [refs|]; simplify_eq/=.
    split; by eexists.
  - intros [[a Ha] [refs Hrefs]]. rewrite Hrefs.
    destruct (AnswerQuestion_fields args) as [errors|a']; simplify_eq/=.
    by eexists.
Qed.

Lemma ReviseAnswer_validate_queries args a :
  ReviseAnswer_validate args = Ok a →
  arg_search_queries args = Some (search_queries (revised a)).
Proof.
  unfold ReviseAnswer_validate, ReviseAnswer_fields, required.
  destruct (AnswerQuestion_fields args) as [errors|a'] eqn:Hfields,
    (arg_references args) as [refs|]; simpl; intros [=]; subst. simpl.
  apply AnswerQuestion_validate_queries.
  unfold AnswerQuestion_validate. by rewrite Hfields.
Qed.

(** C7 (as amended).  For a candidate whose fields, where present,
    hold values of the declared types: it is accepted as
    [AnswerQuestion] exactly when [answer], [reflection] with both its
    fields, and [search_queries] are present; as [ReviseAnswer] exactly
    when in addition [references] is present.  An accepted candidate
    keeps the list of search queries it came with, whatever its length:
    the number of queries is not checked.  A candidate without
    [search_queries] is refused with a [ValidationError]. *)
Theorem schema_validation_checks_presence args :
  ((∃ a, AnswerQuestion_validate args = Ok a) ↔
   is_Some (arg_answer args) ∧ reflection_complete args ∧
   is_Some (arg_search_queries args)) ∧
  ((∃ a, ReviseAnswer_validate args = Ok a) ↔
   (∃ a, AnswerQuestion_validate args = Ok a) ∧
   is_Some (arg_references args)) ∧
  (∀ a, AnswerQuestion_validate args = Ok a →
        arg_search_queries args = Some (search_queries a)) ∧
  (∀ a, ReviseAnswer_validate args = Ok a →
        arg_search_queries args = Some (search_queries (revised a))) ∧
  (arg_search_queries args = None →
   (∃ repr_e, AnswerQuestion_validate args = Raise (ValidationError repr_e)) ∧
   (∃ repr_e, ReviseAnswer_validate args = Raise (ValidationError repr_e))).
Proof.
  split_and!.
  - apply AnswerQuestion_validate_Ok.
  - apply ReviseAnswer_validate_Ok.
  - apply AnswerQuestion_validate_queries.
  - apply ReviseAnswer_validate_queries.
  - intros Hnone. split.
    + destruct (AnswerQuestion_validate args) as [a|e] eqn:Hv.
      * apply AnswerQuestion_validate_queries in Hv. congruence.
      * apply AnswerQuestion_validate_Raise in Hv as [repr_e ->]. by eexists.
    + destruct (ReviseAnswer_validate args) as [a|e] eqn:Hv.
      * apply ReviseAnswer_validate_queries in Hv. congruence.
      * apply ReviseAnswer_validate_Raise in Hv as [repr_e ->]. by eexists.
Qed.

Lemma schema_validation_checks_presence_witness :
  ∃ repr_e,
    AnswerQuestion_validate (sample_args None) = Raise (ValidationError repr_e).
Proof.
  destruct (schema_validation_checks_presence (sample_args None))
    as (_ & _ & _ & _ & Hrefused).
  destruct (Hrefused eq_refl) as [Hanswer _]. exact Hanswer.
Defined.

(** C7 as stated fails: a candidate with no search query and one with
    five are accepted, by both schemas and by both validators. *)
Lemma schema_validation_accepts_any_number_of_queries :
  AnswerQuestion_validate (sample_args (Some [])) =
    Ok {| answer := "Reflection lets a system learn from its errors.";
          reflection := {| missing := "concrete examples";
                           superfluous := "the broad overview" |};
          search_queries := [] |} ∧
  ReviseAnswer_validate (sample_revision_args (Some ["a"; "b"; "c"; "d"; "e"])) =
    Ok {| revised :=
            {| answer := "Reflection lets a system learn from its errors [1].";
               reflection := {| missing := "a case study";
                                superfluous := "nothing" |};
               search_queries := ["a"; "b"; "c"; "d"; "e"] |};
          references := ["https://example.com"] |} ∧
  (∃ accepted,
     validator (AIMessage "" [sample_call "call_1" (Some [])]) = Ok accepted) ∧
  (∃ accepted,
     revision_validator
       (AIMessage ""
          [{| call_type := "ReviseAnswer";
              call_args := sample_revision_args (Some ["a"; "b"; "c"; "d"; "e"]);
              call_id := "call_1" |}]) = Ok accepted).
Proof. split_and!; [reflexivity | reflexivity | by eexists | by eexists]. Qed.

(** ** Termination of the graph *)

(** On tool calls that name the parser's class, the only exception is
    a [ValidationError] of the class. *)
Lemma validate_calls_Raise {T} name (schema : Args → Result T) calls e :
  (∀ args e, schema args = Raise e → ∃ repr_e, e = ValidationError repr_e) →
  Forall (λ c, call_type c = name) calls →
  validate_calls name schema calls = Raise e →
  ∃ repr_e, e = ValidationError repr_e.
Proof.
  intros Hschema Hnamed.
  induction Hnamed as [|c calls Hc _ IH]; simpl; [done |].
  rewrite decide_True by done.
  destruct (schema (call_args c)) as [v|e'] eqn:Hv.
  - destruct (validate_calls name schema calls) as [vs|e'']; [done |].
    intros [= ->]. by apply IH.
  - intros [= ->]. by eapply Hschema.
Qed.

(** An exception raised inside a node ends the run: nothing in the
    graph catches it. *)
Lemma run_from_raises {W}
    (tool_executor_batch : list ToolInvocation → W → W * Result (list Output))
    initial_answer_chain revision_chain fuel node state σ σ' e :
  node ≠ END →
  step tool_executor_batch initial_answer_chain revision_chain node state σ
    = (σ', Raise e) →
  run_from tool_executor_batch initial_answer_chain revision_chain
    (S fuel) node state σ = (σ', Raise e).
Proof.
  intros Hnode Hstep. destruct node; [| | |done];
    cbn [run_from]; cbv [mbind M_bind]; by rewrite Hstep.
Qed.

Section halting.
Context {W : Type}.
Variable search : string → W → W * Output.
Variables initial_answer_chain revision_chain :
  list BaseMessage → W → W * Result BaseMessage.
Hypothesis initial_replies : replies_generated initial_answer_chain.
Hypothesis initial_raises : raises_no_ValidationError initial_answer_chain.
Hypothesis revision_replies : replies_generated revision_chain.
Hypothesis revision_raises : raises_no_ValidationError revision_chain.

Abbreviation step' :=
  (step (batch_isolated search) initial_answer_chain revision_chain).
Abbreviation run_from' :=
  (run_from (batch_isolated search) initial_answer_chain revision_chain).

Lemma respond_loop_outcome (self : ResponderWithRetries W)
    attempts response state σ :
  replies_generated (runnable self) →
  raises_no_ValidationError (runnable self) →
  attempts ≠ [] ∨ (∃ m, response = Single m ∧ generated m) →
  match (respond_loop self attempts response state σ).2 with
  | Ok out => ∃ m, out = Single m ∧ generated m
  | Raise _ => True
  end.
Proof.
  intros Hreplies Hraises. revert response state σ.
  induction attempts as [|a attempts IH]; intros response state σ Hstart.
  - destruct Hstart as [?|(m & -> & Hm)]; [done |]. simpl. by exists m.
  - cbn [respond_loop]. cbv [mbind M_bind]. unfold attempt_body, runnable_invoke.
    destruct (runnable self (deref σ state) (backend σ)) as [w1 [r|e]] eqn:Hrun.
    + apply Hreplies in Hrun.
      destruct (validator_of self r) as [v|e]; [simpl; by exists r |].
      unfold except_ValidationError. destruct e; try done.
      unfold list_add, alloc. cbv [mbind M_bind mret M_ret].
      apply IH. right. by exists r.
    + unfold except_ValidationError. destruct e; try done.
      by destruct (Hraises _ _ _ _ Hrun repr).
Qed.

Lemma call_responder_outcome (self : ResponderWithRetries W) state σ :
  replies_generated (runnable self) →
  raises_no_ValidationError (runnable self) →
  match (call_responder self state σ).2 with
  | Ok out => ∃ m, out = Single m ∧ generated m
  | Raise _ => True
  end.
Proof.
  intros Hreplies Hraises. unfold call_responder, alloc. cbv [mbind M_bind].
  apply respond_loop_outcome; [done.. |]. by left.
Qed.

Lemma step_draft_outcome state σ :
  match (step' node_draft state σ).2 with
  | Ok (node', state') =>
      node' = node_execute_tools ∧ ∃ m, state' = state ++ [m] ∧ generated m
  | Raise _ => True
  end.
Proof.
  pose proof (call_responder_outcome (first_responder initial_answer_chain)
                state σ initial_replies initial_raises) as Hcall.
  simpl. cbv [mbind M_bind].
  destruct (call_responder _ state σ) as [σ1 [out|e]]; [|done].
  destruct Hcall as (m & -> & Hm). simpl. eauto.
Qed.

Lemma step_revise_outcome state σ :
  match (step' node_revise state σ).2 with
  | Ok (node', state') =>
      node' = event_loop state' ∧ ∃ m, state' = state ++ [m] ∧ generated m
  | Raise _ => True
  end.
Proof.
  pose proof (call_responder_outcome (revisor revision_chain)
                state σ revision_replies revision_raises) as Hcall.
  simpl. cbv [mbind M_bind].
  destruct (call_responder _ state σ) as [σ1 [out|e]]; [|done].
  destruct Hcall as (m & -> & Hm). simpl. eauto.
Qed.

Lemma step_execute_tools_outcome state σ :
  match (step' node_execute_tools state σ).2 with
  | Ok (node', state') =>
      node' = node_revise ∧ ∃ out, state' = state ++ out ∧ Forall generated out
  | Raise _ => True
  end.
Proof.
  simpl. cbv [mbind M_bind]. unfold execute_tools.
  destruct (last state) as [m|]; [|done].
  destruct (flatten_calls (parser_invoke m) [] []) as [[ids invs]|e]; [|done].
  cbv [mbind M_bind lift mret M_ret].
  destruct (batch_isolated_Ok search invs (backend σ))
    as (w' & outputs & -> & _).
  simpl. split; [done |]. eexists. split; [done |].
  eapply Forall_impl; [apply tool_messages_are_tool |].
  by intros ? (d & id_ & ->).
Qed.

(** A round of [execute_tools] and [revise]: an exception, or a longer
    conversation from which the run goes on. *)
Lemma run_from_round fuel state σ :
  (∃ σ' e,
     run_from' (S (S fuel)) node_execute_tools state σ = (σ', Raise e)) ∨
  (∃ σ2 out m,
     Forall generated out ∧ generated m ∧
     run_from' (S (S fuel)) node_execute_tools state σ =
       run_from' fuel (event_loop ((state ++ out) ++ [m]))
         ((state ++ out) ++ [m]) σ2).
Proof.
  cbn [run_from]. cbv [mbind M_bind].
  pose proof (step_execute_tools_outcome state σ) as Hexec.
  destruct (step' node_execute_tools state σ) as [σ1 [[node1 state1]|e]];
    [|left; by eexists _, _].
  destruct Hexec as (-> & out & -> & Hout).
  cbn [run_from]. cbv [mbind M_bind].
  pose proof (step_revise_outcome (state ++ out) σ1) as Hrev.
  destruct (step' node_revise (state ++ out) σ1) as [σ2 [[node2 state2]|e]];
    [|left; by eexists _, _].
  destruct Hrev as (-> & m & -> & Hm).
  right. by exists σ2, out, m.
Qed.

Lemma run_from_execute_tools_stops n state σ :
  (5 ≤ _get_num_iterations state + n)%nat →
  stopped state (run_from' (2 * S n) node_execute_tools state σ).2.
Proof.
  revert state σ. induction n as [|n IH]; intros state σ Hdepth.
  - change (2 * 1) with 2.
    destruct (run_from_round 0 state σ)
      as [(σ' & e & ->)|(σ2 & out & m & Hout & Hm & ->)]; [done |].
    unfold event_loop. rewrite decide_True.
    + simpl. split.
      * rewrite <- app_assoc. by apply prefix_app_r.
      * rewrite (get_num_iterations_app _ [m]) by (by repeat constructor).
        rewrite get_num_iterations_app by done.
        unfold MAX_ITERATIONS. simpl. lia.
    + rewrite (get_num_iterations_app _ [m]) by (by repeat constructor).
      rewrite get_num_iterations_app by done.
      unfold MAX_ITERATIONS. simpl. lia.
  - replace (2 * S (S n)) with (S (S (2 * S n))) by lia.
    destruct (run_from_round (2 * S n) state σ)
      as [(σ' & e & ->)|(σ2 & out & m & Hout & Hm & ->)]; [done |].
    assert (_get_num_iterations ((state ++ out) ++ [m])
            = S (length out + _get_num_iterations state)) as Hdeeper.
    { rewrite (get_num_iterations_app _ [m]) by (by repeat constructor).
      by rewrite get_num_iterations_app by done. }
    assert (state `prefix_of` (state ++ out) ++ [m]) as Hpre.
    { rewrite <- app_assoc. by apply prefix_app_r. }
    unfold event_loop at 1. case_decide as Hend.
    + simpl. by split.
    + unfold MAX_ITERATIONS in Hend.
      specialize (IH ((state ++ out) ++ [m]) σ2). unfold stopped in *.
      destruct (run_from' (2 * S n) node_execute_tools _ σ2)
        as [σ3 [[final|]|e]]; simpl in *; [| |done].
      * destruct IH as [Hpre' Hfinal]; [lia |]. split; [by etrans | done].
      * apply IH. lia.
Qed.

(** Whatever the chains answer or raise under the two assumptions, a
    run does not go beyond 11 transitions. *)
Lemma run_stops state σ :
  stopped state
    (run (batch_isolated search) initial_answer_chain revision_chain
       11 state σ).2.
Proof.
  unfold run. change 11 with (S (2 * 5)). cbn [run_from]. cbv [mbind M_bind].
  pose proof (step_draft_outcome state σ) as Hdraft.
  destruct (step' node_draft state σ) as [σ1 [[node1 state1]|e]]; [|done].
  destruct Hdraft as (-> & m & -> & Hm).
  pose proof (run_from_execute_tools_stops 4 (state ++ [m]) σ1) as Hrun.
  unfold stopped in *.
  destruct (run_from' (2 * 5) node_execute_tools (state ++ [m]) σ1)
    as [σ2 [[final|]|e]]; simpl in *.
  - destruct Hrun as [Hpre Hfinal].
    { rewrite (get_num_iterations_app _ [m]) by (by repeat constructor).
      simpl. lia. }
    split; [|done]. etrans; [by apply prefix_app_r | exact Hpre].
  - apply Hrun.
    rewrite (get_num_iterations_app _ [m]) by (by repeat constructor).
    simpl. lia.
  - done.
Qed.
End halting.

Section termination.
Context {W : Type}.
Variable search : string → W → W * Output.
Variables initial_answer_chain revision_chain :
  list BaseMessage → W → W * Result BaseMessage.
Hypothesis initial_answers :
  answers_always "AnswerQuestion" initial_answer_chain.
Hypothesis revision_answers : answers_always "ReviseAnswer" revision_chain.

Abbreviation step' :=
  (step (batch_isolated search) initial_answer_chain revision_chain).
Abbreviation run_from' :=
  (run_from (batch_isolated search) initial_answer_chain revision_chain).

Lemma respond_loop_answers (self : ResponderWithRetries W) name
    attempts response state σ :
  answers_always name (runnable self) →
  (∀ r e, calls_named name r → validator_of self r = Raise e →
          ∃ repr_e, e = ValidationError repr_e) →
  attempts ≠ [] ∨ (∃ m, response = Single m ∧ model_message m) →
  ∃ σ' m,
    respond_loop self attempts response state σ = (σ', Ok (Single m)) ∧
    model_message m.
Proof.
  intros Hchain Hval. revert response state σ.
  induction attempts as [|a attempts IH]; intros response state σ Hstart.
  - destruct Hstart as [?|(m & -> & Hm)]; [done |]. by exists σ, m.
  - cbn [respond_loop]. cbv [mbind M_bind]. unfold attempt_body, runnable_invoke.
    destruct (Hchain (deref σ state) (backend σ)) as (w1 & r & -> & Hr & Hnamed).
    destruct (validator_of self r) as [v|e] eqn:Hv.
    + by eexists _, r.
    + destruct (Hval r e Hnamed Hv) as [repr_e ->].
      unfold except_ValidationError, list_add, alloc.
      cbv [mbind M_bind mret M_ret].
      apply IH. right. by exists r.
Qed.

Lemma call_responder_answers (self : ResponderWithRetries W) name state σ :
  answers_always name (runnable self) →
  (∀ r e, calls_named name r → validator_of self r = Raise e →
          ∃ repr_e, e = ValidationError repr_e) →
  ∃ σ' m,
    call_responder self state σ = (σ', Ok (Single m)) ∧ model_message m.
Proof.
  intros Hchain Hval. unfold call_responder, alloc.
  cbv [mbind M_bind]. eapply respond_loop_answers; [done.. |]. by left.
Qed.

Lemma step_draft state σ :
  ∃ σ' m,
    step' node_draft state σ = (σ', Ok (node_execute_tools, state ++ [m])) ∧
    model_message m.
Proof.
  destruct (call_responder_answers (first_responder initial_answer_chain)
              "AnswerQuestion" state σ) as (σ' & m & Hcall & Hm); [done | |].
  { intros r e Hnamed.
    by apply validate_calls_Raise; [apply AnswerQuestion_validate_Raise |]. }
  exists σ', m. split; [|done]. simpl. cbv [mbind M_bind].
  by rewrite Hcall.
Qed.

Lemma step_revise state σ :
  ∃ σ' m,
    step' node_revise state σ
      = (σ', Ok (event_loop (state ++ [m]), state ++ [m])) ∧
    model_message m.
Proof.
  destruct (call_responder_answers (revisor revision_chain)
              "ReviseAnswer" state σ) as (σ' & m & Hcall & Hm); [done | |].
  { intros r e Hnamed.
    by apply validate_calls_Raise; [apply ReviseAnswer_validate_Raise |]. }
  exists σ', m. split; [|done]. simpl. cbv [mbind M_bind].
  by rewrite Hcall.
Qed.

Lemma step_execute_tools state m σ :
  last state = Some m → model_message m →
  ∃ σ' out,
    step' node_execute_tools state σ = (σ', Ok (node_revise, state ++ out)) ∧
    Forall generated out.
Proof.
  intros Hlast (content & tool_calls & -> & Hall).
  destruct (batch_isolated_Ok search
              (invocation <$> (operations tool_calls).*2) (backend σ))
    as (w' & outputs & Hbatch & _).
  eexists _, _. split.
  - simpl. rewrite (execute_tools_unfold _ _ _ Hlast Hall).
    cbv [mbind M_bind lift mret M_ret]. simpl. rewrite Hbatch. reflexivity.
  - eapply Forall_impl; [apply tool_messages_are_tool |].
    by intros ? (d & id_ & ->).
Qed.

Lemma model_message_generated m : model_message m → generated m.
Proof. by intros (content & tool_calls & -> & _). Qed.

(** One round of [execute_tools] and [revise] makes the conversation
    longer and the depth larger. *)
Lemma round_deepens state m σ :
  last state = Some m → model_message m →
  ∃ σ1 state1 σ2 m2,
    step' node_execute_tools state σ = (σ1, Ok (node_revise, state1)) ∧
    step' node_revise state1 σ1
      = (σ2, Ok (event_loop (state1 ++ [m2]), state1 ++ [m2])) ∧
    model_message m2 ∧ state `prefix_of` state1 ∧
    (_get_num_iterations state < _get_num_iterations (state1 ++ [m2]))%nat.
Proof.
  intros Hlast Hm.
  destruct (step_execute_tools state m σ Hlast Hm) as (σ1 & out & Hexec & Hout).
  destruct (step_revise (state ++ out) σ1) as (σ2 & m2 & Hrev & Hm2).
  exists σ1, (state ++ out), σ2, m2. split_and!; [done.. | by eexists |].
  rewrite (get_num_iterations_app _ [m2])
    by (constructor; [by apply model_message_generated | constructor]).
  rewrite get_num_iterations_app by done. simpl. lia.
Qed.

Lemma run_from_execute_tools n state m σ :
  last state = Some m → model_message m →
  (5 ≤ _get_num_iterations state + n)%nat →
  ∃ σ' final,
    run_from' (2 * S n) node_execute_tools state σ = (σ', Ok (Some final)) ∧
    state `prefix_of` final ∧
    (MAX_ITERATIONS < _get_num_iterations final)%nat.
Proof.
  revert state m σ. induction n as [|n IH]; intros state m σ Hlast Hm Hdepth.
  - destruct (round_deepens state m σ Hlast Hm)
      as (σ1 & state1 & σ2 & m2 & Hexec & Hrev & Hm2 & Hpre & Hdeeper).
    exists σ2, (state1 ++ [m2]).
    change (2 * 1) with 2. cbn [run_from]. cbv [mbind M_bind].
    rewrite Hexec. cbn [run_from]. cbv [mbind M_bind]. rewrite Hrev.
    unfold event_loop. rewrite decide_True by (unfold MAX_ITERATIONS; lia).
    split_and!; [done | | unfold MAX_ITERATIONS; lia].
    etrans; [exact Hpre | by apply prefix_app_r].
  - destruct (round_deepens state m σ Hlast Hm)
      as (σ1 & state1 & σ2 & m2 & Hexec & Hrev & Hm2 & Hpre & Hdeeper).
    replace (2 * S (S n)) with (S (S (2 * S n))) by lia.
    cbn [run_from]. cbv [mbind M_bind].
    rewrite Hexec. cbn [run_from]. cbv [mbind M_bind]. rewrite Hrev.
    unfold event_loop at 1. case_decide as Hend.
    + exists σ2, (state1 ++ [m2]). split_and!; [done | | done].
      etrans; [exact Hpre | by apply prefix_app_r].
    + destruct (IH (state1 ++ [m2]) m2 σ2) as (σ' & final & Hrun & Hpre' & Hfinal).
      * apply last_snoc.
      * done.
      * lia.
      * exists σ', final. split_and!; [done | | done].
        etrans; [exact Hpre |]. etrans; [by apply prefix_app_r | exact Hpre'].
Qed.

Lemma run_from_more_fuel fuel node state σ σ' final :
  run_from' fuel node state σ = (σ', Ok (Some final)) →
  ∀ fuel', (fuel ≤ fuel')%nat →
    run_from' fuel' node state σ = (σ', Ok (Some final)).
Proof.
  revert node state σ. induction fuel as [|fuel IH];
    intros node state σ Hrun fuel' Hle.
  - destruct node; simplify_eq/=. by destruct fuel'.
  - destruct fuel' as [|fuel']; [lia |].
    destruct node; [| | |done]; cbn [run_from] in *; cbv [mbind M_bind] in *.
    all: destruct (step' _ state σ) as [σ1 [[node1 state1]|e]]; [|done].
    all: apply IH; [done | lia].
Qed.

(** With chains that always answer, a round makes the depth larger
    and the run reaches [END] within 11 transitions. *)
Lemma answered_run_terminates state σ :
  (∀ state m σ,
     last state = Some m → model_message m →
     ∃ σ1 state1 σ2 m2,
       step' node_execute_tools state σ = (σ1, Ok (node_revise, state1)) ∧
       step' node_revise state1 σ1
         = (σ2, Ok (event_loop (state1 ++ [m2]), state1 ++ [m2])) ∧
       model_message m2 ∧ state `prefix_of` state1 ∧
       (_get_num_iterations state < _get_num_iterations (state1 ++ [m2]))%nat) ∧
  ∃ σ' final,
    (∀ fuel, (11 ≤ fuel)%nat →
       run (batch_isolated search) initial_answer_chain revision_chain
         fuel state σ = (σ', Ok (Some final))) ∧
    state `prefix_of` final ∧
    (MAX_ITERATIONS < _get_num_iterations final)%nat.
Proof.
  split; [apply round_deepens |].
  destruct (step_draft state σ) as (σ1 & m & Hdraft & Hm).
  destruct (run_from_execute_tools 4 (state ++ [m]) m σ1)
    as (σ' & final & Hrun & Hpre & Hfinal).
  - apply last_snoc.
  - done.
  - rewrite (get_num_iterations_app _ [m])
      by (constructor; [by apply model_message_generated | constructor]).
    simpl. lia.
  - exists σ', final. split_and!; [| | done].
    + intros fuel Hfuel. apply (run_from_more_fuel 11); [|done].
      unfold run. change 11 with (S (2 * 5)).
      cbn [run_from]. cbv [mbind M_bind]. by rewrite Hdraft.
    + etrans; [by apply prefix_app_r | exact Hpre].
Qed.
End termination.


Lemma constant_chain_answers {W} :
  answers_always "AnswerQuestion" (constant_chain (W := W) valid_reply).
Proof.
  intros messages w. exists w, valid_reply. split; [reflexivity |]. split.
  - exists "", sample_calls.
    split; [reflexivity | exact sample_calls_have_queries].
  - repeat constructor.
Qed.

Lemma constant_chain_revises {W} :
  answers_always "ReviseAnswer" (constant_chain (W := W) revised_reply).
Proof.
  intros messages w. exists w, revised_reply. split; [reflexivity |]. split.
  - exists "Revised.", sample_revision_calls.
    split; [reflexivity | repeat constructor; by eexists].
  - repeat constructor.
Qed.



(** Nor does it reach [END] when the revision chain answers like the
    first one: the revision validator does not know the tool the reply
    names. *)
Lemma run_of_replayed_drafts_raises :
  (run (batch_isolated scripted_search)
     (constant_chain valid_reply) (constant_chain valid_reply) 11
     [HumanMessage "How should we handle the climate crisis?"]
     (initial_world flaky_search)).2
  = Raise (KeyError "AnswerQuestion").
Proof. reflexivity. Qed.

(** * Further properties of the code *)

(** ** Environment setup *)

Section environment_facts.
Context {W : Type}.
Variable getpass : string → W → W * string.

Lemma set_if_undefined_other var other (s : Shell W) :
  other ≠ var →
  environ (_set_if_undefined getpass var s) !! other = environ s !! other.
Proof.
  intros Hne. unfold _set_if_undefined.
  destruct (truthy (environ s !! var)); [done |].
  destruct (getpass var (user s)) as [w' value]. simpl.
  by rewrite lookup_insert_ne.
Qed.

Lemma set_if_undefined_defined var (s : Shell W) :
  is_Some (environ (_set_if_undefined getpass var s) !! var).
Proof.
  unfold _set_if_undefined.
  destruct (truthy (environ s !! var)) eqn:Ht.
  - destruct (environ s !! var); [by eexists | done].
  - destruct (getpass var (user s)) as [w' value]. simpl.
    rewrite lookup_insert_eq. by eexists.
Qed.

Lemma set_if_undefined_asked var (s : Shell W) :
  asked (_set_if_undefined getpass var s) =
    asked s ++ (if truthy (environ s !! var) then [] else [var]).
Proof.
  unfold _set_if_undefined.
  destruct (truthy (environ s !! var)); [by rewrite app_nil_r |].
  by destruct (getpass var (user s)).
Qed.

(** X1.  [_set_if_undefined] leaves a variable that has a non-empty
    value alone and asks nothing; otherwise it asks once, with the name
    as prompt, and stores what was typed.  Either way the variable is
    defined afterwards, every other variable keeps its value, and a
    second call changes nothing when the value is non-empty. *)
Theorem set_if_undefined_contract var (s : Shell W) :
  (truthy (environ s !! var) = true → _set_if_undefined getpass var s = s) ∧
  (truthy (environ s !! var) = false →
   environ (_set_if_undefined getpass var s) !! var
     = Some (getpass var (user s)).2 ∧
   user (_set_if_undefined getpass var s) = (getpass var (user s)).1 ∧
   asked (_set_if_undefined getpass var s) = asked s ++ [var]) ∧
  is_Some (environ (_set_if_undefined getpass var s) !! var) ∧
  (∀ other, other ≠ var →
     environ (_set_if_undefined getpass var s) !! other = environ s !! other) ∧
  (truthy (environ (_set_if_undefined getpass var s) !! var) = true →
   _set_if_undefined getpass var (_set_if_undefined getpass var s)
     = _set_if_undefined getpass var s).
Proof.
  split_and!.
  - intros Ht. unfold _set_if_undefined. by rewrite Ht.
  - intros Ht. unfold _set_if_undefined. rewrite Ht.
    destruct (getpass var (user s)) as [w' value]. simpl.
    by rewrite lookup_insert_eq.
  - apply set_if_undefined_defined.
  - intros other Hne. by apply set_if_undefined_other.
  - intros Ht. unfold _set_if_undefined at 1. by rewrite Ht.
Qed.

(** X2.  After the setup cell the five names it mentions are defined,
    the tracing flag is ["true"] and the project is ["Reflexion"]
    whatever they were; every other variable is as before; a key that
    had a non-empty value keeps it; and the user was asked only for the
    keys that had none, in the order of the cell. *)
Theorem setup_environment_defines_keys (s : Shell W) :
  (∀ name, name ∈ setup_names →
     is_Some (environ (setup_environment getpass s) !! name)) ∧
  environ (setup_environment getpass s) !! "LANGCHAIN_TRACING_V2"
    = Some "true" ∧
  environ (setup_environment getpass s) !! "LANGCHAIN_PROJECT"
    = Some "Reflexion" ∧
  (∀ other, other ∉ setup_names →
     environ (setup_environment getpass s) !! other = environ s !! other) ∧
  (∀ key, key ∈ ["LANGCHAIN_API_KEY"; "OPENAI_API_KEY"; "TAVILY_API_KEY"] →
     truthy (environ s !! key) = true →
     environ (setup_environment getpass s) !! key = environ s !! key) ∧
  asked (setup_environment getpass s) =
    asked s ++
    filter (λ key, truthy (environ s !! key) = false)
      ["LANGCHAIN_API_KEY"; "OPENAI_API_KEY"; "TAVILY_API_KEY"].
Proof.
  assert (∀ name value var (t : Shell W), name ≠ var →
            environ (environ_set name value t) !! var = environ t !! var)
    as Hset_ne.
  { intros name value var t Hne. simpl. by rewrite lookup_insert_ne. }
  unfold setup_environment. split_and!.
  - intros name Hname. unfold setup_names in Hname.
    repeat (apply elem_of_cons in Hname as [->|Hname]);
      [| | | | | by apply elem_of_nil in Hname].
    + rewrite !set_if_undefined_other, !Hset_ne by done.
      apply set_if_undefined_defined.
    + rewrite !set_if_undefined_other, Hset_ne by done. simpl.
      rewrite lookup_insert_eq. by eexists.
    + rewrite !set_if_undefined_other by done. simpl.
      rewrite lookup_insert_eq. by eexists.
    + rewrite set_if_undefined_other by done. apply set_if_undefined_defined.
    + apply set_if_undefined_defined.
  - rewrite !set_if_undefined_other, Hset_ne by done. simpl.
    by rewrite lookup_insert_eq.
  - rewrite !set_if_undefined_other by done. simpl.
    by rewrite lookup_insert_eq.
  - intros other Hother. unfold setup_names in Hother.
    rewrite !not_elem_of_cons in Hother.
    destruct Hother as (? & ? & ? & ? & ? & _).
    rewrite !set_if_undefined_other, !Hset_ne by done.
    by rewrite set_if_undefined_other.
  - intros key Hkey Ht.
    assert (∀ (t : Shell W), environ t !! key = environ s !! key →
              environ (_set_if_undefined getpass key t) !! key
                = environ s !! key) as Hkeep.
    { intros t Hsame. unfold _set_if_undefined. by rewrite Hsame, Ht. }
    repeat (apply elem_of_cons in Hkey as [->|Hkey]);
      [| | | by apply elem_of_nil in Hkey].
    + rewrite !set_if_undefined_other, !Hset_ne by done. by apply Hkeep.
    + rewrite set_if_undefined_other by done. apply Hkeep.
      by rewrite !Hset_ne, set_if_undefined_other by done.
    + apply Hkeep.
      by rewrite set_if_undefined_other, !Hset_ne, set_if_undefined_other
        by done.
  - rewrite !set_if_undefined_asked. simpl asked.
    rewrite set_if_undefined_asked.
    rewrite !set_if_undefined_other, !Hset_ne by done.
    rewrite (set_if_undefined_other "LANGCHAIN_API_KEY" "TAVILY_API_KEY")
      by done.
    rewrite (set_if_undefined_other "LANGCHAIN_API_KEY" "OPENAI_API_KEY")
      by done.
    rewrite <- !app_assoc. f_equal.
    rewrite !filter_cons, filter_nil.
    destruct (truthy (environ s !! "LANGCHAIN_API_KEY")),
      (truthy (environ s !! "OPENAI_API_KEY")),
      (truthy (environ s !! "TAVILY_API_KEY")); reflexivity.
Qed.
End environment_facts.

Lemma set_if_undefined_contract_witness :
  _set_if_undefined (typing_user "secret") "OPENAI_API_KEY" sample_shell
    = sample_shell ∧
  asked (_set_if_undefined (typing_user "secret") "TAVILY_API_KEY" sample_shell)
    = ["TAVILY_API_KEY"].
Proof.
  split.
  - apply (set_if_undefined_contract (typing_user "secret") "OPENAI_API_KEY"
             sample_shell).
    reflexivity.
  - apply (set_if_undefined_contract (typing_user "secret") "TAVILY_API_KEY"
             sample_shell).
    reflexivity.
Defined.

Lemma setup_environment_defines_keys_witness :
  environ (setup_environment (typing_user "secret") sample_shell)
    !! "OPENAI_API_KEY" = Some "sk-1" ∧
  asked (setup_environment (typing_user "secret") sample_shell)
    = ["LANGCHAIN_API_KEY"; "TAVILY_API_KEY"].
Proof.
  destruct (setup_environment_defines_keys (typing_user "secret") sample_shell)
    as (_ & _ & _ & _ & Hkeep & Hasked).
  split.
  - rewrite (Hkeep "OPENAI_API_KEY"); [reflexivity | | reflexivity].
    right; left.
  - rewrite Hasked. reflexivity.
Defined.

(** ** The dispatcher: errors, order, correlation *)

Section dispatcher_facts.
Import Dict DictFacts.
Context {W : Type}.
Variable tool_executor_batch :
  list ToolInvocation → W → W * Result (list Output).

Lemma zip3_with_outputs ops outputs :
  zip3 ops.*1 outputs (invocation <$> ops.*2) = with_outputs ops outputs.
Proof.
  unfold with_outputs. revert outputs.
  induction ops as [|[a q] ops IH]; intros [|o outs]; simpl; [done.. |].
  by rewrite IH.
Qed.

(** What [execute_tools] returns when nothing raises, whatever the
    number of outputs. *)
Lemma execute_tools_Ok state tool_invocation σ w' outputs :
  let ops := operations (parser_invoke tool_invocation) in
  last state = Some tool_invocation →
  Forall has_queries (parser_invoke tool_invocation) →
  tool_executor_batch (invocation <$> ops.*2) (backend σ) = (w', Ok outputs) →
  execute_tools tool_executor_batch state σ =
    (with_backend w' σ,
     Ok (tool_messages (group_outputs (with_outputs ops outputs) []))).
Proof.
  intros ops Hlast Hall Hbatch.
  rewrite (execute_tools_unfold _ _ _ Hlast Hall). fold ops.
  cbv [mbind M_bind lift mret M_ret]. rewrite Hbatch.
  by rewrite zip3_with_outputs.
Qed.

Lemma execute_tools_result state σ σ' msgs :
  execute_tools tool_executor_batch state σ = (σ', Ok msgs) →
  ∃ outputs_map, msgs = tool_messages outputs_map.
Proof.
  unfold execute_tools. destruct (last state) as [m|]; [|done].
  destruct (flatten_calls (parser_invoke m) [] []) as [[ids invs]|e]; [|done].
  cbv [mbind M_bind lift mret M_ret].
  destruct (tool_executor_batch invs (backend σ)) as [w' [outputs|e]]; [|done].
  intros [= _ <-]. by eexists.
Qed.

Lemma tool_call_ids_tool_messages (outputs_map : Dict.t (Dict.t Output)) :
  tool_call_ids (tool_messages outputs_map) = keys outputs_map.
Proof.
  unfold tool_call_ids, tool_messages, keys.
  induction outputs_map as [|[k d] m IH]; [done |]. csimpl. by rewrite IH.
Qed.

Lemma elem_of_results_for (outputs_map : Dict.t (Dict.t Output)) id_ d :
  NoDup (keys outputs_map) →
  d ∈ results_for id_ (tool_messages outputs_map) ↔
  get id_ outputs_map = Some d.
Proof.
  intros Hnd. rewrite results_for_tool_messages by done.
  destruct (get id_ outputs_map) as [d'|].
  - rewrite list_elem_of_singleton. split; [by intros -> | by intros [= ->]].
  - split; [by intros ?%elem_of_nil | done].
Qed.

(** *** Order *)

Lemma keys_group_order zipped (outputs_map : Dict.t (Dict.t Output)) :
  keys (group_outputs zipped outputs_map) =
    first_occurrences_into (keys outputs_map) zipped.*1.*1.
Proof.
  revert outputs_map.
  induction zipped as [|[[a o] v] zipped IH]; intros m; [done |].
  csimpl. rewrite IH. unfold store_output. by rewrite keys_set.
Qed.

Lemma inner_keys_group_order zipped (outputs_map : Dict.t (Dict.t Output)) id_ :
  keys (default [] (get id_ (group_outputs zipped outputs_map))) =
    first_occurrences_into (keys (default [] (get id_ outputs_map)))
      ((tool_input ∘ snd) <$> filter (λ t, t.1.1 = id_) zipped).
Proof.
  revert outputs_map.
  induction zipped as [|[[a o] v] zipped IH]; intros m; [done |].
  cbn [group_outputs]. rewrite IH. unfold store_output. rewrite get_set.
  rewrite filter_cons. simpl.
  destruct (decide (id_ = a)) as [->|Hne].
  - rewrite decide_True by done. csimpl. by rewrite keys_set.
  - by rewrite decide_False by done.
Qed.

Lemma with_outputs_ids ops outputs :
  length outputs = length ops →
  (with_outputs ops outputs).*1.*1 = ops.*1.
Proof.
  unfold with_outputs. revert outputs.
  induction ops as [|[a q] ops IH]; intros [|o outs] Hlen; simplify_eq/=;
    [done |].
  by rewrite IH.
Qed.

Lemma with_outputs_queries ops outputs id_ :
  length outputs = length ops →
  (tool_input ∘ snd) <$> filter (λ t, t.1.1 = id_) (with_outputs ops outputs)
    = queries_for id_ ops.
Proof.
  unfold with_outputs, queries_for. revert outputs.
  induction ops as [|[a q] ops IH]; intros [|o outs] Hlen; simplify_eq/=;
    [done |].
  rewrite !filter_cons. simpl.
  destruct (decide (a = id_)); csimpl; by rewrite IH.
Qed.

(** X3.  With every [search_queries] argument present and one output
    per operation, the tool messages come in the order in which their
    identifiers first occur among the tool calls' operations, and the
    keys of each mapping in the order in which the query strings first
    occur under that identifier. *)
Theorem execute_tools_keeps_first_occurrence_order
    state tool_invocation σ w' outputs :
  let ops := operations (parser_invoke tool_invocation) in
  last state = Some tool_invocation →
  Forall has_queries (parser_invoke tool_invocation) →
  tool_executor_batch (invocation <$> ops.*2) (backend σ) = (w', Ok outputs) →
  length outputs = length ops →
  ∃ msgs,
    execute_tools tool_executor_batch state σ = (with_backend w' σ, Ok msgs) ∧
    tool_call_ids msgs = first_occurrences ops.*1 ∧
    ∀ id_ d, d ∈ results_for id_ msgs →
             keys d = first_occurrences (queries_for id_ ops).
Proof.
  intros ops Hlast Hall Hbatch Hlen.
  eexists. split; [by apply execute_tools_Ok |]. split.
  - rewrite tool_call_ids_tool_messages, keys_group_order.
    by rewrite with_outputs_ids.
  - intros id_ d Hd.
    apply elem_of_results_for in Hd; [|apply NoDup_group, NoDup_nil_2].
    pose proof (inner_keys_group_order (with_outputs ops outputs) [] id_) as Hk.
    subst ops. rewrite Hd, with_outputs_queries in Hk by done. exact Hk.
Qed.

(** *** Errors raised before anything is dispatched *)

(** X4.  On an empty conversation [execute_tools] raises [IndexError];
    when some tool call of the last message has no [search_queries]
    argument it raises [KeyError], also when earlier tool calls had
    queries.  In both cases the batch is not run: the collaborators'
    state is what it was. *)
Theorem execute_tools_raises_before_dispatch state σ :
  (state = [] →
   execute_tools tool_executor_batch state σ = (σ, Raise IndexError)) ∧
  (∀ tool_invocation,
     last state = Some tool_invocation →
     ¬ Forall has_queries (parser_invoke tool_invocation) →
     execute_tools tool_executor_batch state σ
       = (σ, Raise (KeyError "search_queries"))).
Proof.
  split.
  - by intros ->.
  - intros m Hlast Hnot. unfold execute_tools. rewrite Hlast.
    by rewrite flatten_calls_KeyError.
Qed.

(** *** Correlation, for any number of outputs *)

Lemma lookup2_group_Some zipped (outputs_map : Dict.t (Dict.t Output)) id_ q o :
  lookup2 id_ q (group_outputs zipped outputs_map) = Some o →
  lookup2 id_ q outputs_map = Some o ∨
  ∃ v, (id_, o, v) ∈ zipped ∧ tool_input v = q.
Proof.
  revert outputs_map.
  induction zipped as [|[[a o'] v] zipped IH]; intros m Hl; [by left |].
  simpl in Hl. apply IH in Hl as [Hl|(v' & Hin & Hq)].
  - rewrite lookup2_store in Hl. case_decide as Hhit.
    + destruct Hhit as [-> ->]. injection Hl as ->.
      right. exists v. split; [left | done].
    + by left.
  - right. exists v'. split; [by right | done].
Qed.

Lemma inner_nonempty_group zipped (outputs_map : Dict.t (Dict.t Output)) :
  inner_nonempty outputs_map →
  inner_nonempty (group_outputs zipped outputs_map).
Proof.
  revert outputs_map.
  induction zipped as [|[[a o] v] zipped IH]; intros m Hm; [done |].
  simpl. apply IH. unfold inner_nonempty, store_output in *.
  rewrite Forall_forall in *. intros entry Hin.
  apply elem_of_set in Hin as [->|Hin]; [|by apply Hm]. simpl.
  by destruct (default [] (get a m)) as [|[k' v'] d]; simpl; [|case_decide].
Qed.

(** X5.  Whatever number of outputs the batch returns, [execute_tools]
    does not raise and correlates strictly: there is at most one tool
    message per identifier, no mapping is empty or has a key twice, and
    every entry [(q, o)] of the message of [id_] is the output [o] that
    the batch returned at the position of an operation with identifier
    [id_] and query [q]. *)
Theorem execute_tools_entries_are_correlated
    state tool_invocation σ w' outputs :
  let ops := operations (parser_invoke tool_invocation) in
  last state = Some tool_invocation →
  Forall has_queries (parser_invoke tool_invocation) →
  tool_executor_batch (invocation <$> ops.*2) (backend σ) = (w', Ok outputs) →
  ∃ msgs,
    execute_tools tool_executor_batch state σ = (with_backend w' σ, Ok msgs) ∧
    NoDup (tool_call_ids msgs) ∧
    ∀ id_ d, d ∈ results_for id_ msgs →
      d ≠ [] ∧ NoDup (keys d) ∧
      ∀ q o, (q, o) ∈ d →
             ∃ i, ops !! i = Some (id_, q) ∧ outputs !! i = Some o.
Proof.
  intros ops Hlast Hall Hbatch.
  eexists. split; [by apply execute_tools_Ok |]. split.
  - rewrite tool_call_ids_tool_messages. apply NoDup_group, NoDup_nil_2.
  - intros id_ d Hd.
    apply elem_of_results_for in Hd; [|apply NoDup_group, NoDup_nil_2].
    pose proof (inner_nonempty_group (with_outputs ops outputs) []
                  (Forall_nil_2 _)) as Hne.
    pose proof (inner_NoDup_group (with_outputs ops outputs) []
                  (Forall_nil_2 _)) as Hnd.
    unfold inner_nonempty, inner_NoDup in *. rewrite Forall_forall in Hne, Hnd.
    apply get_Some_elem in Hd as Hin.
    split_and!; [apply (Hne _ Hin) | apply (Hnd _ Hin) |].
    intros q o Hqo.
    destruct (lookup2_group_Some (with_outputs ops outputs) [] id_ q o)
      as [[=]|(v & Hv & Hq)].
    { unfold lookup2. subst ops. rewrite Hd. simpl. apply elem_get; [|done].
      apply (Hnd _ Hin). }
    unfold with_outputs in Hv.
    apply elem_of_lookup_zip_with in Hv as (i & [a q'] & o' & Heq & Hop & Hout).
    simplify_eq/=. by exists i.
Qed.

(** X6.  When the batch returns fewer outputs than there are
    operations, nothing is raised, and a query that occurs under an
    identifier only beyond the last output is in no mapping of that
    identifier. *)
Theorem execute_tools_drops_operations_without_output
    state tool_invocation σ w' outputs id_ q :
  let ops := operations (parser_invoke tool_invocation) in
  last state = Some tool_invocation →
  Forall has_queries (parser_invoke tool_invocation) →
  tool_executor_batch (invocation <$> ops.*2) (backend σ) = (w', Ok outputs) →
  (id_, q) ∉ take (length outputs) ops →
  ∃ msgs,
    execute_tools tool_executor_batch state σ = (with_backend w' σ, Ok msgs) ∧
    ∀ d, d ∈ results_for id_ msgs → q ∉ keys d.
Proof.
  intros ops Hlast Hall Hbatch Hbeyond.
  eexists. split; [by apply execute_tools_Ok |].
  intros d Hd Hq.
  apply elem_of_results_for in Hd; [|apply NoDup_group, NoDup_nil_2].
  destruct (get q d) as [o|] eqn:Hget; [|by apply get_None in Hget].
  destruct (lookup2_group_Some (with_outputs ops outputs) [] id_ q o)
    as [[=]|(v & Hv & Hqv)].
  { unfold lookup2. subst ops. by rewrite Hd. }
  unfold with_outputs in Hv.
  apply elem_of_lookup_zip_with in Hv as (i & [a q'] & o' & Heq & Hop & Hout).
  simplify_eq/=. apply Hbeyond.
  apply (list_elem_of_lookup_2 _ i). rewrite lookup_take_lt; [done |].
  by eapply lookup_lt_Some.
Qed.

(** *** What the dispatcher looks at *)

Lemma flatten_calls_view calls calls' ids tool_invocations :
  dispatch_view <$> calls = dispatch_view <$> calls' →
  flatten_calls calls ids tool_invocations =
    flatten_calls calls' ids tool_invocations.
Proof.
  revert calls' ids tool_invocations.
  induction calls as [|c calls IH]; intros [|c' calls'] ids invs Hview;
    simplify_eq/=; [done |].
  unfold dispatch_view in *. simplify_eq.
  destruct (arg_search_queries (call_args c')) as [qs|] eqn:Hqs.
  - replace (arg_search_queries (call_args c)) with (Some qs) by congruence.
    replace (call_id c) with (call_id c') by congruence.
    destruct (append_queries _ _ _ _). by apply IH.
  - by replace (arg_search_queries (call_args c)) with (@None (list string))
      by congruence.
Qed.

Lemma flatten_calls_tool calls ids tool_invocations ids' tool_invocations' :
  flatten_calls calls ids tool_invocations = Ok (ids', tool_invocations') →
  Forall (λ v, tool v = "tavily_search_results_json") tool_invocations →
  Forall (λ v, tool v = "tavily_search_results_json") tool_invocations'.
Proof.
  revert ids tool_invocations.
  induction calls as [|c calls IH]; intros ids invs Hflat Hinvs; simpl in Hflat.
  - by simplify_eq.
  - destruct (arg_search_queries (call_args c)) as [qs|]; [|done].
    rewrite append_queries_eq in Hflat. eapply IH; [exact Hflat |].
    apply Forall_app. split; [done |]. by apply Forall_fmap, Forall_true.
Qed.

(** X7.  [execute_tools] looks at nothing but the identifiers and the
    [search_queries] of the tool calls of the last message: two
    conversations whose last messages agree on these behave alike,
    whatever the earlier messages, the content, the [type] of the calls
    and their other arguments; and every invocation it builds names the
    one search tool. *)
Theorem execute_tools_reads_ids_and_queries
    state state' tool_invocation tool_invocation' :
  last state = Some tool_invocation →
  last state' = Some tool_invocation' →
  dispatch_view <$> parser_invoke tool_invocation
    = dispatch_view <$> parser_invoke tool_invocation' →
  execute_tools tool_executor_batch state
    = execute_tools tool_executor_batch state' ∧
  ∀ ids tool_invocations,
    flatten_calls (parser_invoke tool_invocation) [] []
      = Ok (ids, tool_invocations) →
    Forall (λ v, tool v = "tavily_search_results_json") tool_invocations.
Proof.
  intros Hlast Hlast' Hview. split.
  - unfold execute_tools. rewrite Hlast, Hlast'.
    by rewrite (flatten_calls_view _ _ _ _ Hview).
  - intros ids invs Hflat. eapply flatten_calls_tool; [exact Hflat | done].
Qed.

(** X8.  The tool messages [execute_tools] returns all count for the
    iteration depth: appended to the conversation they raise the depth
    by their number. *)
Theorem execute_tools_deepens_by_message_count state σ σ' msgs :
  execute_tools tool_executor_batch state σ = (σ', Ok msgs) →
  _get_num_iterations (state ++ msgs)
    = length msgs + _get_num_iterations state.
Proof.
  intros [outputs_map ->]%execute_tools_result.
  apply get_num_iterations_app.
  eapply Forall_impl; [apply tool_messages_are_tool |].
  by intros ? (d & id_ & ->).
Qed.
End dispatcher_facts.

Lemma execute_tools_keeps_first_occurrence_order_witness :
  ∃ msgs,
    execute_tools (canned_batch sample_outputs) sample_state (initial_world ())
      = (initial_world (), Ok msgs) ∧
    tool_call_ids msgs = ["call_1"; "call_2"] ∧
    ∀ d, d ∈ results_for "call_1" msgs → Dict.keys d = ["q1"; "q2"].
Proof.
  destruct (execute_tools_keeps_first_occurrence_order
              (canned_batch sample_outputs) sample_state
              (AIMessage "" sample_calls) (initial_world ()) () sample_outputs)
    as (msgs & Hrun & Hids & Hkeys).
  - reflexivity.
  - exact sample_calls_have_queries.
  - reflexivity.
  - reflexivity.
  - exists msgs. split; [exact Hrun | split; [exact Hids |]].
    intros d Hd. exact (Hkeys "call_1" d Hd).
Defined.

Lemma execute_tools_raises_before_dispatch_witness :
  execute_tools (canned_batch sample_outputs) [] (initial_world ())
    = (initial_world (), Raise IndexError) ∧
  execute_tools (canned_batch sample_outputs)
    [HumanMessage "Why is reflection useful in AI?"; half_reply]
    (initial_world ())
    = (initial_world (), Raise (KeyError "search_queries")).
Proof.
  split.
  - apply (proj1 (execute_tools_raises_before_dispatch
                    (canned_batch sample_outputs) [] (initial_world ()))).
    reflexivity.
  - apply (proj2 (execute_tools_raises_before_dispatch
                    (canned_batch sample_outputs)
                    [HumanMessage "Why is reflection useful in AI?"; half_reply]
                    (initial_world ())) half_reply).
    + reflexivity.
    + intros [_ [[qs Hqs] _]%Forall_cons]%Forall_cons. discriminate Hqs.
Defined.

Lemma execute_tools_entries_are_correlated_witness :
  ∃ msgs,
    execute_tools (canned_batch [found "u1"; found "u2"]) sample_state
      (initial_world ())
      = (initial_world (), Ok msgs) ∧
    NoDup (tool_call_ids msgs) ∧
    ∀ d, d ∈ results_for "call_1" msgs → d ≠ [].
Proof.
  destruct (execute_tools_entries_are_correlated
              (canned_batch [found "u1"; found "u2"]) sample_state
              (AIMessage "" sample_calls) (initial_world ()) ()
              [found "u1"; found "u2"])
    as (msgs & Hrun & Hnd & Hentries).
  - reflexivity.
  - exact sample_calls_have_queries.
  - reflexivity.
  - exists msgs. split; [exact Hrun | split; [exact Hnd |]].
    intros d Hd. exact (proj1 (Hentries "call_1" d Hd)).
Defined.

Lemma execute_tools_drops_operations_without_output_witness :
  ∃ msgs,
    execute_tools (canned_batch [found "u1"; found "u2"]) sample_state
      (initial_world ())
      = (initial_world (), Ok msgs) ∧
    ∀ d, d ∈ results_for "call_2" msgs → "q3" ∉ Dict.keys d.
Proof.
  apply (execute_tools_drops_operations_without_output
           (canned_batch [found "u1"; found "u2"]) sample_state
           (AIMessage "" sample_calls) (initial_world ()) ()
           [found "u1"; found "u2"] "call_2" "q3").
  - reflexivity.
  - exact sample_calls_have_queries.
  - reflexivity.
  - intros [[=]|[[=]|[]%elem_of_nil]%elem_of_cons]%elem_of_cons.
Defined.

Lemma execute_tools_reads_ids_and_queries_witness :
  execute_tools (canned_batch (W := ()) sample_outputs) sample_state
    = execute_tools (canned_batch sample_outputs) other_state.
Proof.
  apply (execute_tools_reads_ids_and_queries (canned_batch sample_outputs)
           sample_state other_state (AIMessage "" sample_calls)
           (AIMessage "Revised." sample_revision_calls));
    reflexivity.
Defined.

Lemma execute_tools_deepens_by_message_count_witness :
  ∃ msgs,
    execute_tools (canned_batch sample_outputs) sample_state (initial_world ())
      = (initial_world (), Ok msgs) ∧
    _get_num_iterations (sample_state ++ msgs) = 3.
Proof.
  eexists. split; [vm_compute; reflexivity |].
  rewrite (execute_tools_deepens_by_message_count
             (canned_batch sample_outputs) sample_state
             (initial_world ()) (initial_world ()));
    reflexivity.
Defined.

(** ** The responder: prompts of the retries, other exits *)

Section responder_facts.
Context {W : Type}.
Variable self : ResponderWithRetries W.
Implicit Types (σ : World W) (state : loc) (response : NodeOutput).

Lemma retries_prompts response0 state0 σ0 k response state σ :
  retries self response0 state0 σ0 k response state σ →
  state0 ∈ dom (heap σ0) →
  state ∈ dom (heap σ) ∧
  ∃ errors,
    length errors = k ∧
    Forall (λ repr_e, ∃ r, validator_of self r = Raise (ValidationError repr_e))
      errors ∧
    deref σ state = deref σ0 state0 ++ (HumanMessage <$> errors) ∧
    calls σ = calls σ0 ++ (prompt_of (deref σ0 state0) errors <$> seq 0 k).
Proof.
  induction 1 as [|k response state σ r state' σ' _ IH Hfail]; intros Hdom.
  - split; [done |]. exists []. split_and!; [done | constructor | |].
    + by rewrite app_nil_r.
    + by rewrite app_nil_r.
  - destruct (IH Hdom) as (Hstate & errors & Hlen & Hraised & Hderef & Hcalls).
    destruct Hfail as (w1 & repr_e & _ & Hval & Hadd).
    unfold list_add, alloc in Hadd. injection Hadd as <- <-. split.
    { apply elem_of_dom. simpl. rewrite lookup_insert_eq. by eexists. }
    exists (errors ++ [repr_e]). split_and!.
    + rewrite length_app. simpl. lia.
    + apply Forall_app. split; [done |]. constructor; [by exists r | constructor].
    + unfold deref at 1. simpl. rewrite lookup_insert_eq. simpl.
      change (deref (invoked σ state w1) state) with (deref σ state).
      by rewrite Hderef, fmap_app, app_assoc.
    + cbn [calls invoked].
      rewrite Hcalls, seq_S, fmap_app, <- app_assoc. f_equal. f_equal.
      * apply list_fmap_ext. intros i j Hj. unfold prompt_of.
        apply lookup_seq in Hj as [-> Hj]. simpl.
        by rewrite take_app_le by lia.
      * simpl. f_equal. unfold prompt_of.
        by rewrite <- Hlen, take_app_length, Hderef.
Qed.

(** X9.  When an attempt passes after [k] attempts that failed
    validation, the prompts [respond] sent are the caller's conversation,
    then the conversation followed by the first error as a human
    message, and so on: prompt [j] carries the texts of the first [j]
    validation errors, in order, and nothing else is added. *)
Theorem respond_prompts_carry_the_errors
    state σ k response state' σ' r σ'' :
  state ∈ dom (heap σ) →
  retries self (Several []) state σ k response state' σ' →
  (k < 3)%nat →
  passes_validation self state' σ' r σ'' →
  ∃ errors,
    length errors = k ∧
    Forall (λ repr_e, ∃ r, validator_of self r = Raise (ValidationError repr_e))
      errors ∧
    respond self state σ = (σ'', Ok (Single r)) ∧
    calls σ'' = calls σ ++ (prompt_of (deref σ state) errors <$> seq 0 (S k)).
Proof.
  intros Hdom Hretries Hk Hpass.
  destruct (retries_prompts _ _ _ _ _ _ _ Hretries Hdom)
    as (_ & errors & Hlen & Hraised & Hderef & Hcalls).
  exists errors. split_and!; [done.. | |].
  - unfold respond.
    replace (seq 0 3) with (seq 0 k ++ k :: seq (S k) (3 - S k)).
    2:{ change (k :: seq (S k) (3 - S k)) with (seq k (S (3 - S k))).
        rewrite <- seq_app. f_equal. lia. }
    rewrite (respond_loop_retries self _ _ _ _ _ _ _ Hretries)
      by apply length_seq.
    cbn [respond_loop]. cbv [mbind M_bind].
    by rewrite (attempt_body_passes self _ _ _ _ _ Hpass).
  - destruct Hpass as (w1 & v & _ & _ & ->). cbn [calls invoked].
    rewrite Hcalls, seq_S, fmap_app, <- app_assoc. do 2 f_equal. simpl.
    unfold prompt_of. by rewrite <- Hlen, firstn_all, Hderef.
Qed.

Lemma attempt_body_validator_raises response state σ w1 r e :
  runnable self (deref σ state) (backend σ) = (w1, Ok r) →
  validator_of self r = Raise e →
  (∀ repr_e, e ≠ ValidationError repr_e) →
  attempt_body self response state σ = (invoked σ state w1, Raise e).
Proof.
  intros Hrun Hval Hother.
  unfold attempt_body, runnable_invoke. rewrite Hrun. fold (invoked σ state w1).
  rewrite Hval. unfold except_ValidationError. destruct e; try done.
  by destruct (Hother repr).
Qed.

(** X10.  An exception of the validator that is not a [ValidationError]
    is not caught either: after fewer than 3 attempts that failed
    validation, [respond] raises it at once, the model having been
    called once more and not again. *)
Theorem respond_propagates_validator_errors
    state σ k response state' σ' w1 r e :
  retries self (Several []) state σ k response state' σ' →
  (k < 3)%nat →
  runnable self (deref σ' state') (backend σ') = (w1, Ok r) →
  validator_of self r = Raise e →
  (∀ repr_e, e ≠ ValidationError repr_e) →
  respond self state σ = (invoked σ' state' w1, Raise e) ∧
  length (calls (invoked σ' state' w1)) = length (calls σ) + S k.
Proof.
  intros Hretries Hk Hrun Hval Hother. split.
  - unfold respond.
    replace (seq 0 3) with (seq 0 k ++ k :: seq (S k) (3 - S k)).
    2:{ change (k :: seq (S k) (3 - S k)) with (seq k (S (3 - S k))).
        rewrite <- seq_app. f_equal. lia. }
    rewrite (respond_loop_retries self _ _ _ _ _ _ _ Hretries)
      by apply length_seq.
    cbn [respond_loop]. cbv [mbind M_bind].
    by rewrite (attempt_body_validator_raises _ _ _ _ _ _ Hrun Hval Hother).
  - destruct (retries_calls self _ _ _ _ _ _ _ Hretries) as (sent & Hs & Hl).
    simpl. rewrite Hs, !length_app. simpl. lia.
Qed.

Lemma respond_loop_runnable_raises attempts response state σ :
  (∀ messages w, ∃ w' repr_e,
     runnable self messages w = (w', Raise (ValidationError repr_e))) →
  ∃ σ',
    respond_loop self attempts response state σ = (σ', Ok response) ∧
    length (calls σ') = length (calls σ) + length attempts.
Proof.
  intros Hraises. revert state σ.
  induction attempts as [|a attempts IH]; intros state σ.
  - exists σ. split; [done | simpl; lia].
  - cbn [respond_loop]. cbv [mbind M_bind]. unfold attempt_body, runnable_invoke.
    destruct (Hraises (deref σ state) (backend σ)) as (w1 & repr_e & ->).
    unfold except_ValidationError, list_add, alloc.
    cbv [mbind M_bind mret M_ret].
    match goal with
    | |- ∃ σ', respond_loop _ _ _ ?l ?σ1 = _ ∧ _ =>
        destruct (IH l σ1) as (σ' & Hrun & Hlen)
    end.
    exists σ'. split; [done |]. rewrite Hlen. simpl. rewrite length_app.
    simpl. lia.
Qed.

(** X11.  A [ValidationError] raised by the call to the model itself is
    caught like one of the validator.  If every call raises one,
    [respond] calls the model 3 times and returns the empty list it
    started with, not a message and not an exception. *)
Theorem respond_returns_the_empty_list state σ :
  (∀ messages w, ∃ w' repr_e,
     runnable self messages w = (w', Raise (ValidationError repr_e))) →
  ∃ σ',
    respond self state σ = (σ', Ok (Several [])) ∧
    length (calls σ') = length (calls σ) + 3.
Proof.
  intros Hraises.
  destruct (respond_loop_runnable_raises (seq 0 3) (Several []) state σ Hraises)
    as (σ' & Hrun & Hlen).
  by exists σ'.
Qed.
End responder_facts.

Lemma respond_prompts_carry_the_errors_witness :
  ∃ σ'' repr_e,
    respond (first_responder scripted_chain) 1%positive
      (scripted_world [Ok invalid_reply; Ok valid_reply])
      = (σ'', Ok (Single valid_reply)) ∧
    calls σ'' =
      [[HumanMessage "Why is reflection useful in AI?"];
       [HumanMessage "Why is reflection useful in AI?"; HumanMessage repr_e]].
Proof.
  destruct (invalid_reply_fails 1%positive
              (scripted_world [Ok invalid_reply; Ok valid_reply])
              [Ok valid_reply] eq_refl)
    as (state1 & σ1 & Hfail1 & Hrs1).
  destruct (respond_prompts_carry_the_errors (first_responder scripted_chain)
              1%positive (scripted_world [Ok invalid_reply; Ok valid_reply])
              1 (Single invalid_reply) state1 σ1 valid_reply
              (invoked σ1 state1 {| replies := []; lookups := lookups (backend σ1) |}))
    as (errors & Hlen & _ & Hrun & Hcalls).
  - apply elem_of_dom. by eexists.
  - eapply retries_S; [apply retries_0 | exact Hfail1].
  - lia.
  - eexists _, _. split_and!.
    + simpl. unfold scripted_chain. rewrite Hrs1. reflexivity.
    + reflexivity.
    + reflexivity.
  - destruct errors as [|repr_e [|? ?]]; [discriminate | | discriminate].
    eexists _, repr_e. split; [exact Hrun | exact Hcalls].
Defined.

Lemma respond_propagates_validator_errors_witness :
  respond (first_responder scripted_chain) 1%positive
    (scripted_world [Ok foreign_reply; Ok valid_reply])
  = (invoked (scripted_world [Ok foreign_reply; Ok valid_reply]) 1%positive
       {| replies := [Ok valid_reply]; lookups := [] |},
     Raise (KeyError "ReviseAnswer")).
Proof.
  eapply proj1,
    (respond_propagates_validator_errors (first_responder scripted_chain)
       1%positive (scripted_world [Ok foreign_reply; Ok valid_reply])
       0 (Several []) 1%positive
       (scripted_world [Ok foreign_reply; Ok valid_reply])
       {| replies := [Ok valid_reply]; lookups := [] |}
       foreign_reply (KeyError "ReviseAnswer")).
  - apply retries_0.
  - lia.
  - reflexivity.
  - reflexivity.
  - intros repr_e. discriminate.
Defined.

Lemma respond_returns_the_empty_list_witness :
  ∃ σ',
    respond (first_responder (raising_chain (ValidationError "no tool call")))
      1%positive plain_world
      = (σ', Ok (Several [])) ∧
    length (calls σ') = 3.
Proof.
  apply (respond_returns_the_empty_list
           (first_responder (raising_chain (ValidationError "no tool call")))
           1%positive plain_world).
  intros messages w. exists w, "no tool call". reflexivity.
Defined.

(** ** The validators on whole responses *)

Lemma validate_calls_Ok {T} name (schema : Args → Result T) calls vs :
  validate_calls name schema calls = Ok vs ↔
  Forall2 (λ c v, call_type c = name ∧ schema (call_args c) = Ok v) calls vs.
Proof.
  revert vs. induction calls as [|c calls IH]; intros vs; simpl.
  - split; [intros [= <-]; constructor | by intros ->%Forall2_nil_inv_l].
  - case_decide as Hname.
    + destruct (schema (call_args c)) as [v|e] eqn:Hc.
      * destruct (validate_calls name schema calls) as [vs'|e'] eqn:Hrest.
        -- split.
           ++ intros [= <-]. constructor; [done | by apply IH].
           ++ intros (v' & vs'' & [_ Hv] & Hvs & ->)%Forall2_cons_inv_l.
              apply IH in Hvs. rewrite Hc in Hv. by simplify_eq.
        -- split; [done |].
           intros (v' & vs'' & _ & Hvs%IH & ->)%Forall2_cons_inv_l. done.
      * split; [done |].
        intros (v' & vs'' & [_ Hv] & _ & ->)%Forall2_cons_inv_l. congruence.
    + split; [done |].
      intros (v' & vs'' & [Hv _] & _ & ->)%Forall2_cons_inv_l. done.
Qed.

(** A tool call of another name ends the parse with a [KeyError], when
    the calls before it were accepted. *)
Lemma validate_calls_KeyError {T} name (schema : Args → Result T)
    accepted vs c rest :
  validate_calls name schema accepted = Ok vs →
  call_type c ≠ name →
  validate_calls name schema (accepted ++ c :: rest)
    = Raise (KeyError (call_type c)).
Proof.
  revert vs. induction accepted as [|c0 accepted IH]; intros vs Hvs Hname.
  - simpl. by rewrite decide_False.
  - simpl in *. case_decide; [|done].
    destruct (schema (call_args c0)) as [v|e]; [|done].
    destruct (validate_calls name schema accepted) as [vs'|e] eqn:Hrest;
      [|done].
    by rewrite (IH vs').
Qed.

(** What is raised is a [KeyError] with the name of a tool call of the
    response, or an exception of the class. *)
Lemma validate_calls_raises {T} name (schema : Args → Result T) calls e :
  validate_calls name schema calls = Raise e →
  ∃ c, c ∈ calls ∧
       ((call_type c ≠ name ∧ e = KeyError (call_type c)) ∨
        (call_type c = name ∧ schema (call_args c) = Raise e)).
Proof.
  induction calls as [|c calls IH]; simpl; [done |].
  case_decide as Hname.
  - destruct (schema (call_args c)) as [v|e'] eqn:Hc.
    + destruct (validate_calls name schema calls) as [vs|e''] eqn:Hrest;
        [done |].
      intros [= ->]. destruct (IH eq_refl) as (c' & Hin & Hc').
      exists c'. split; [by right | done].
    + intros [= ->]. exists c. split; [left | by right].
  - intros [= <-]. exists c. split; [left | by left].
Qed.



Lemma validated_calls_have_queries {T} name (schema : Args → Result T)
    (queries : T → list string) calls vs :
  (∀ args v, schema args = Ok v → arg_search_queries args = Some (queries v)) →
  validate_calls name schema calls = Ok vs →
  Forall has_queries calls ∧
  (operations calls).*2 = mjoin (queries <$> vs).
Proof.
  intros Hschema Hvs%validate_calls_Ok.
  induction Hvs as [|c v calls vs [_ Hc] _ [IHq IHo]]; [by split |].
  apply Hschema in Hc. split.
  - constructor; [by eexists | done].
  - rewrite operations_cons, fmap_app, IHo. csimpl. f_equal.
    unfold queries_of. rewrite Hc. simpl.
    rewrite <- list_fmap_compose. apply list_fmap_id.
Qed.

(** X13.  A response that either validator accepted can be dispatched:
    all its tool calls have their [search_queries], so on a
    conversation that ends with it [execute_tools] does not raise a
    [KeyError] of its own but runs the batch, on exactly the search
    queries of the validated answers, in order. *)
Theorem validated_response_is_dispatched {W}
    (tool_executor_batch : list ToolInvocation → W → W * Result (list Output))
    (state : list BaseMessage) (response : BaseMessage) (queries : list string) :
  (∃ vs, validator response = Ok vs ∧
         queries = mjoin (search_queries <$> vs)) ∨
  (∃ vs, revision_validator response = Ok vs ∧
         queries = mjoin ((search_queries ∘ revised) <$> vs)) →
  Forall has_queries (parser_invoke response) ∧
  ∃ ids,
    length ids = length queries ∧
    execute_tools tool_executor_batch (state ++ [response]) =
      (outputs ← lift (tool_executor_batch (invocation <$> queries));
       mret (tool_messages
               (group_outputs
                  (zip3 ids outputs (invocation <$> queries)) []))).
Proof.
  intros Hvalid.
  assert (Forall has_queries (parser_invoke response) ∧
          (operations (parser_invoke response)).*2 = queries) as [Hall Hq].
  { destruct Hvalid as [(vs & Hvs & ->)|(vs & Hvs & ->)].
    - eapply validated_calls_have_queries; [|exact Hvs].
      apply AnswerQuestion_validate_queries.
    - rewrite (list_fmap_compose revised search_queries).
      rewrite <- (list_fmap_compose revised search_queries).
      eapply (validated_calls_have_queries "ReviseAnswer"
                ReviseAnswer_validate (search_queries ∘ revised));
        [|exact Hvs].
      apply ReviseAnswer_validate_queries. }
  split; [done |].
  exists (operations (parser_invoke response)).*1. split.
  - by rewrite <- Hq, !length_fmap.
  - rewrite <- Hq. apply execute_tools_unfold; [apply last_snoc | done].
Qed.

Lemma validated_response_is_dispatched_witness :
  Forall has_queries (parser_invoke valid_reply) ∧
  ∃ ids,
    length ids = 4 ∧
    execute_tools (canned_batch (W := ()) sample_outputs)
      ([HumanMessage "Why is reflection useful in AI?"] ++ [valid_reply]) =
      (outputs ← lift (canned_batch sample_outputs
                         (invocation <$> ["q1"; "q2"; "q1"; "q3"]));
       mret (tool_messages
               (group_outputs
                  (zip3 ids outputs (invocation <$> ["q1"; "q2"; "q1"; "q3"]))
                  []))).
Proof.
  apply (validated_response_is_dispatched (canned_batch sample_outputs)
           [HumanMessage "Why is reflection useful in AI?"] valid_reply
           ["q1"; "q2"; "q1"; "q3"]).
  left. eexists. split; reflexivity.
Defined.

(** ** The iteration depth: bounds *)

(** X14.  The depth is at most the length of the conversation, with
    equality exactly when every message is a tool or model message; it
    is zero exactly when the conversation is empty or ends in a message
    of another kind; appending tool or model messages adds their number;
    and a conversation of at most 5 messages never ends the loop. *)
Theorem get_num_iterations_bounds (state : list BaseMessage) :
  (_get_num_iterations state ≤ length state)%nat ∧
  (_get_num_iterations state = length state ↔ Forall generated state) ∧
  (_get_num_iterations state = 0 ↔
   ∀ m, last state = Some m → isinstance_Tool_or_AI m = false) ∧
  (∀ suffix, Forall generated suffix →
     _get_num_iterations (state ++ suffix)
       = length suffix + _get_num_iterations state) ∧
  ((length state ≤ 5)%nat → event_loop state = node_execute_tools).
Proof.
  destruct (trailing_run_exists state) as (prefix & suffix & -> & Hs & Hp).
  rewrite (get_num_iterations_suffix prefix suffix Hs Hp), length_app.
  assert (length suffix ≤ length prefix + length suffix)%nat as Hle by lia.
  split_and!.
  - done.
  - split.
    + intros Hlen. destruct prefix as [|m prefix]; [done | simpl in Hlen; lia].
    + intros Hall. destruct prefix as [|m prefix] using rev_ind; [done |].
      apply Forall_app in Hall as [Hall _].
      apply Forall_app in Hall as [_ Hm].
      rewrite Forall_singleton in Hm. unfold generated in Hm.
      pose proof (Hp m (last_snoc _ _)). congruence.
  - split.
    + intros Hzero m. destruct suffix; [|done]. rewrite app_nil_r. apply Hp.
    + intros Hlast. destruct suffix as [|m suffix _] using rev_ind; [done |].
      apply Forall_app in Hs as [_ Hm]. rewrite Forall_singleton in Hm.
      unfold generated in Hm.
      assert (isinstance_Tool_or_AI m = false); [|congruence].
      apply Hlast. by rewrite app_assoc, last_snoc.
  - intros suffix' Hs'. rewrite get_num_iterations_app by done.
    by rewrite (get_num_iterations_suffix prefix suffix Hs Hp).
  - intros Hshort. unfold event_loop.
    rewrite (get_num_iterations_suffix prefix suffix Hs Hp).
    rewrite decide_False; [done |]. unfold MAX_ITERATIONS. lia.
Qed.

Lemma get_num_iterations_bounds_witness :
  _get_num_iterations (sample_state ++ [AIMessage "Revised." sample_calls]) = 2 ∧
  event_loop sample_state = node_execute_tools.
Proof.
  destruct (get_num_iterations_bounds sample_state)
    as (_ & _ & _ & Happ & Hshort).
  split.
  - rewrite (Happ [AIMessage "Revised." sample_calls]); [reflexivity |].
    repeat constructor.
  - apply Hshort. simpl. lia.
Defined.

(** ** Reading the final answer *)

(** X15.  When the last message of the final conversation was accepted
    by a validator and has a tool call, the answer that is read off is
    the [answer] field of the first validated object.  A last message
    without tool calls is accepted by both validators as well, and
    reading the answer then raises [IndexError]. *)
Theorem final_answer_of_validated_response
    (state : list BaseMessage) (response : BaseMessage) :
  (∀ v vs, revision_validator response = Ok (v :: vs) →
           final_answer (state ++ [response]) = Ok (answer (revised v))) ∧
  (∀ v vs, validator response = Ok (v :: vs) →
           final_answer (state ++ [response]) = Ok (answer v)) ∧
  (parser_invoke response = [] →
   validator response = Ok [] ∧ revision_validator response = Ok [] ∧
   final_answer (state ++ [response]) = Raise IndexError).
Proof.
  unfold final_answer. rewrite last_snoc. split_and!.
  - intros v vs Hvs. apply validate_calls_Ok in Hvs.
    apply Forall2_cons_inv_r in Hvs as (c & calls & [_ Hc] & _ & ->).
    unfold ReviseAnswer_validate, ReviseAnswer_fields, AnswerQuestion_fields,
      required in Hc.
    destruct (arg_answer (call_args c)) as [a|]; [|].
    + destruct (arg_reflection (call_args c)) as [rf|];
        [destruct (Reflection_fields rf)|];
        destruct (arg_search_queries (call_args c)),
          (arg_references (call_args c)); by simplify_eq/=.
    + destruct (arg_reflection (call_args c)) as [rf|];
        [destruct (Reflection_fields rf)|];
        destruct (arg_search_queries (call_args c)),
          (arg_references (call_args c)); by simplify_eq/=.
  - intros v vs Hvs. apply validate_calls_Ok in Hvs.
    apply Forall2_cons_inv_r in Hvs as (c & calls & [_ Hc] & _ & ->).
    unfold AnswerQuestion_validate, AnswerQuestion_fields, required in Hc.
    destruct (arg_answer (call_args c)) as [a|];
      (destruct (arg_reflection (call_args c)) as [rf|];
        [destruct (Reflection_fields rf)|]);
      destruct (arg_search_queries (call_args c)); by simplify_eq/=.
  - intros Hnone. unfold validator, revision_validator, PydanticToolsParser.
    by rewrite Hnone.
Qed.

Lemma final_answer_of_validated_response_witness :
  final_answer ([HumanMessage "Why is reflection useful in AI?"] ++ [valid_reply])
    = Ok "Reflection lets a system learn from its errors." ∧
  final_answer
    ([HumanMessage "Why is reflection useful in AI?"] ++ [AIMessage "Done." []])
    = Raise IndexError.
Proof.
  split.
  - destruct (final_answer_of_validated_response
                [HumanMessage "Why is reflection useful in AI?"] valid_reply)
      as (_ & Hdraft & _).
    destruct (validator valid_reply) as [[|v vs]|e] eqn:Hv;
      [discriminate Hv | | discriminate Hv].
    rewrite (Hdraft v vs eq_refl). injection Hv as <- _. reflexivity.
  - apply (final_answer_of_validated_response
             [HumanMessage "Why is reflection useful in AI?"]
             (AIMessage "Done." [])).
    reflexivity.
Defined.

(** ** The graph: model calls of a run *)

Section budget.
Context {W : Type}.
Variable tool_executor_batch :
  list ToolInvocation → W → W * Result (list Output).
Variables initial_answer_chain revision_chain :
  list BaseMessage → W → W * Result BaseMessage.

Abbreviation run_from' :=
  (run_from tool_executor_batch initial_answer_chain revision_chain).

Lemma execute_tools_calls state σ :
  calls (execute_tools tool_executor_batch state σ).1 = calls σ.
Proof.
  unfold execute_tools. destruct (last state) as [m|]; [|done].
  destruct (flatten_calls (parser_invoke m) [] []) as [[ids invs]|e]; [|done].
  cbv [mbind M_bind lift mret M_ret].
  by destruct (tool_executor_batch invs (backend σ)) as [w' [outputs|e]].
Qed.

Lemma call_responder_calls (self : ResponderWithRetries W) state σ :
  (length (calls (call_responder self state σ).1) ≤ length (calls σ) + 3)%nat.
Proof.
  unfold call_responder, alloc. cbv [mbind M_bind].
  match goal with
  | |- context [respond self ?l ?σ1] =>
      destruct (respond_loop_calls self (seq 0 3) (Several []) l σ1)
        as (sent & Hsent & Hlen)
  end.
  unfold respond. rewrite Hsent, length_app. simpl in *. lia.
Qed.

Lemma run_from_execute_tools_calls n state σ :
  (length (calls (run_from' (2 * n) node_execute_tools state σ).1)
   ≤ length (calls σ) + 3 * n)%nat.
Proof.
  revert state σ. induction n as [|n IH]; intros state σ; [simpl; lia |].
  replace (2 * S n) with (S (S (2 * n))) by lia.
  cbn [run_from step]. cbv [mbind M_bind mret M_ret].
  pose proof (execute_tools_calls state σ) as Hexec.
  destruct (execute_tools tool_executor_batch state σ) as [σ1 [out|e]];
    simpl in Hexec; [|simpl; rewrite Hexec; lia].
  cbn [run_from step]. cbv [mbind M_bind mret M_ret].
  pose proof (call_responder_calls (revisor revision_chain)
                (add_messages state (Several out)) σ1) as Hrev.
  rewrite Hexec in Hrev.
  destruct (call_responder (revisor revision_chain) _ σ1) as [σ2 [out2|e]];
    simpl in Hrev; [|simpl; lia].
  destruct (event_loop _) eqn:Hnext.
  - by unfold event_loop in Hnext; case_decide.
  - specialize (IH (add_messages (add_messages state (Several out)) out2) σ2).
    lia.
  - by unfold event_loop in Hnext; case_decide.
  - destruct n; simpl; lia.
Qed.

End budget.
